(** * The order tracking store of the trading front end

    A shallow embedding of [frontend/src/store/orderStore.js] (a zustand
    store holding the list of orders, refreshed by a polling timer) and
    of the event loop around it: timer callbacks, settled batches of
    status requests and calls of the store's public operations. *)

From stdpp Require Import base decidable option list strings gmap sets.
From Stdlib Require Import ZArith Ascii.

Module OrderStore.

(** ** Data *)

(** The price of an order as JSON carries it when it is there: a number,
    or a string (a decimal written out as text). *)
Inductive price_value :=
  | price_number (n : Z)
  | price_text (s : string).

(** The order record, as the server sends it ([response.data]); the store
    itself reads [id] and [status] only, the other fields are what the
    orders table displays.  [price] is [None] when the field is missing
    or [null] (a market order). *)
Record order := Order {
  id : string;
  status : string;
  symbol : string;
  exchange : string;
  price : option price_value;
  quantity_requested : Z;
  quantity_filled : Z;
  parent_order_id : option string;
  is_algorithmic : bool;
  is_paper_trade : bool
}.

(** The zustand state: [orders], [trackedOrderIds] (declared, never
    touched by any operation) and [pollingInterval], which is [null]
    ([None]) or the handle returned by [setInterval].  Handles are
    integers greater than zero, hence truthy in [if (pollingInterval)]. *)
Record store := Store {
  orders : list order;
  trackedOrderIds : gset string;
  pollingInterval : option positive
}.

(** One entry of the array [Promise.allSettled] resolves to.  A fulfilled
    entry carries [result.value.data], an order record. *)
Inductive settled :=
  | fulfilled (value : order)
  | rejected (reason : string).

(** The store together with the part of the JavaScript environment its
    operations act on: the live interval timers, the next fresh handle
    [setInterval] hands out, the [pollOrders] calls suspended at their
    [await] (each holds its [activeOrders]), and a log of every
    [GET /trade/order/{id}] issued so far. *)
Record world := World {
  state : store;
  timers : gset positive;
  next_handle : positive;
  inflight : list (list order);
  sent : list string
}.

Definition initial_store : store :=
  {| orders := []; trackedOrderIds := ∅; pollingInterval := None |}.

Definition initial_world : world :=
  {| state := initial_store; timers := ∅; next_handle := 1%positive;
     inflight := []; sent := [] |}.

Definition ids (os : list order) : list string := id <$> os.

(** ** Operations *)

(** [['FILLED', 'CANCELED', 'REJECTED', 'ERROR'].includes(s)] *)
Definition is_terminal (s : string) : bool :=
  bool_decide (s ∈ ["FILLED"; "CANCELED"; "REJECTED"; "ERROR"]).

(** [orders.filter(o => ![...].includes(o.status))] *)
Definition activeOrders (os : list order) : list order :=
  filter (λ o, is_terminal (status o) = false) os.

(** [draft.orders.findIndex(o => o.id === i)], with [-1] as [None]. *)
Definition findIndex (i : string) (os : list order) : option nat :=
  fst <$> list_find (λ o, id o = i) os.

(** The recipe of [addOrder]: push unless some cached order has the id. *)
Definition push_order (newOrder : order) (s : store) : store :=
  if bool_decide (Exists (λ o, id o = id newOrder) (orders s)) then s
  else {| orders := orders s ++ [newOrder];
          trackedOrderIds := trackedOrderIds s;
          pollingInterval := pollingInterval s |}.

Definition set_pollingInterval (p : option positive) (s : store) : store :=
  {| orders := orders s; trackedOrderIds := trackedOrderIds s;
     pollingInterval := p |}.

Definition startPolling (w : world) : world :=
  match pollingInterval (state w) with
  | Some _ => w
  | None =>
      let interval := next_handle w in
      {| state := set_pollingInterval (Some interval) (state w);
         timers := {[interval]} ∪ timers w;
         next_handle := Pos.succ interval;
         inflight := inflight w; sent := sent w |}
  end.

Definition stopPolling (w : world) : world :=
  match pollingInterval (state w) with
  | Some h =>
      {| state := set_pollingInterval None (state w);
         timers := timers w ∖ {[h]};
         next_handle := next_handle w;
         inflight := inflight w; sent := sent w |}
  | None => w
  end.

Definition addOrder (newOrder : order) (w : world) : world :=
  startPolling
    {| state := push_order newOrder (state w); timers := timers w;
       next_handle := next_handle w; inflight := inflight w;
       sent := sent w |}.

(** [pollOrders] up to its [await]: either the active set is empty and
    the poller stops, or one request per active order goes out and the
    call suspends holding [activeOrders]. *)
Definition pollOrders (w : world) : world :=
  let active := activeOrders (orders (state w)) in
  if decide (length active = 0) then stopPolling w
  else {| state := state w; timers := timers w;
          next_handle := next_handle w;
          inflight := inflight w ++ [active];
          sent := sent w ++ ids active |}.

(** The body of [results.forEach] for one entry, on the draft. *)
Definition apply_result (draft : list order) (result : settled) : list order :=
  match result with
  | fulfilled updatedOrder =>
      match findIndex (id updatedOrder) draft with
      | Some orderIndex => <[orderIndex := updatedOrder]> draft
      | None => draft
      end
  | rejected _ => draft
  end.

(** The recipe passed to [produce] after the [await]. *)
Definition merge_results (os : list order) (results : list settled) : list order :=
  foldl apply_result os results.

Definition set_orders (os : list order) (s : store) : store :=
  {| orders := os; trackedOrderIds := trackedOrderIds s;
     pollingInterval := pollingInterval s |}.

(** [pollOrders] after its [await]: the [k]-th suspended call resumes with
    one result per request and writes the merge into the current state. *)
Definition settle (k : nat) (results : list settled) (w : world) : option world :=
  match inflight w !! k with
  | Some batch =>
      if decide (length results = length batch) then
        Some {| state := set_orders (merge_results (orders (state w)) results) (state w);
                timers := timers w; next_handle := next_handle w;
                inflight := delete k (inflight w); sent := sent w |}
      else None
  | None => None
  end.

(** ** The event loop *)

(** What can happen next: a caller invokes [addOrder] (the order panel,
    with the body of the create-order response), [startPolling] (the
    orders table, on mount) or [stopPolling]; a live timer fires
    [pollOrders]; a suspended [pollOrders] resumes. *)
Inductive event :=
  | EvAddOrder (newOrder : order)
  | EvStartPolling
  | EvStopPolling
  | EvTick (h : positive)
  | EvSettle (k : nat) (results : list settled).

Definition step (w : world) (e : event) : option world :=
  match e with
  | EvAddOrder o => Some (addOrder o w)
  | EvStartPolling => Some (startPolling w)
  | EvStopPolling => Some (stopPolling w)
  | EvTick h => if decide (h ∈ timers w) then Some (pollOrders w) else None
  | EvSettle k results => settle k results w
  end.

Fixpoint run (w : world) (es : list event) : option world :=
  match es with
  | [] => Some w
  | e :: es' =>
      match step w e with
      | Some w' => run w' es'
      | None => None
      end
  end.

Definition reachable (w : world) : Prop :=
  ∃ es, run initial_world es = Some w.

(** Sample records for the scenarios below. *)
Definition sample (i st : string) (filled : Z) : order :=
  {| id := i; status := st; symbol := "BTC/USDT"; exchange := "binance";
     price := None;
     quantity_requested := 10; quantity_filled := filled;
     parent_order_id := None; is_algorithmic := false;
     is_paper_trade := true |}.

(** A sequence of [addOrder] calls. *)
Definition addOrders (os : list order) (w : world) : world :=
  foldl (λ w o, addOrder o w) w os.

(** ** Predicates used in the statements *)

Definition is_fulfilled (r : settled) : bool :=
  match r with fulfilled _ => true | rejected _ => false end.

(** The handles a store with this [pollingInterval] accounts for. *)
Definition timers_of (p : option positive) : gset positive :=
  match p with Some h => {[h]} | None => ∅ end.

(** The invariant of the event loop: cached ids are pairwise distinct,
    the live timers are exactly the stored handle, and every suspended
    [pollOrders] asked for pairwise distinct ids, all of them cached. *)
Record inv (w : world) : Prop := {
  inv_ids : NoDup (ids (orders (state w)));
  inv_timers : timers w = timers_of (pollingInterval (state w));
  inv_inflight :
    Forall (λ batch, NoDup (ids batch) ∧ ids batch ⊆ ids (orders (state w)))
           (inflight w)
}.

(** The status endpoint answers a request for an id with the record of
    that id: entry [j] of the results, when fulfilled, carries the id of
    entry [j] of the batch. *)
Definition answers_one (o : order) (r : settled) : Prop :=
  match r with fulfilled u => id u = id o | rejected _ => True end.

Definition answers (batch : list order) (rs : list settled) : Prop :=
  Forall2 answers_one batch rs.

(** The event delivers a response that carries a non-terminal status for
    the id [i]. *)
Definition reopens_one (i : string) (r : settled) : bool :=
  match r with
  | fulfilled u => bool_decide (id u = i) && negb (is_terminal (status u))
  | rejected _ => false
  end.

Definition reopens (i : string) (e : event) : bool :=
  match e with
  | EvSettle _ rs => existsb (reopens_one i) rs
  | _ => false
  end.

(** The event runs [startPolling]. *)
Definition starts (e : event) : bool :=
  match e with
  | EvAddOrder _ | EvStartPolling => true
  | _ => false
  end.

(** The event is an [addOrder] call. *)
Definition is_addOrder (e : event) : bool :=
  match e with EvAddOrder _ => true | _ => false end.

(** The record cached under the id [i]. *)
Definition find_order (i : string) (os : list order) : option order :=
  snd <$> list_find (λ o, id o = i) os.

Definition cached (i : string) (w : world) : option order :=
  find_order i (orders (state w)).

(** ** Scenarios *)

Definition A_submitted : order := sample "A" "SUBMITTED" 0.
Definition A_filled : order := sample "A" "FILLED" 10.
Definition B_submitted : order := sample "B" "SUBMITTED" 0.
Definition B_filled : order := sample "B" "FILLED" 10.

(** A duplicate addOrder, then one tick whose batch settles with one
    entry fulfilled and one rejected. *)
Definition mixed_trace : list event :=
  [EvAddOrder A_submitted; EvAddOrder (sample "A" "ACCEPTED" 0);
   EvAddOrder B_submitted; EvTick 1;
   EvSettle 0 [fulfilled A_filled; rejected "Network Error"]].

Definition mixed_world : world := default initial_world (run initial_world mixed_trace).

(** Two ticks overlap: the batch of the second settles first and
    reports [A] filled, the batch of the first settles afterwards with
    what the server knew when it was asked. *)
Definition overlap_trace : list event :=
  [EvAddOrder A_submitted; EvAddOrder B_submitted; EvTick 1; EvTick 1;
   EvSettle 1 [fulfilled A_filled; fulfilled B_submitted]].

Definition overlap_world : world :=
  default initial_world (run initial_world overlap_trace).

Definition late_response : event :=
  EvSettle 0 [fulfilled A_submitted; fulfilled B_submitted].

Definition late_world : world :=
  default initial_world (step overlap_world late_response).

Definition late_tick_world : world :=
  default initial_world (run overlap_world [late_response; EvTick 1]).

(** The same overlap with a single order: the third tick finds nothing
    active and stops the poller while the first batch is still out. *)
Definition drained_trace : list event :=
  [EvAddOrder A_submitted; EvTick 1; EvTick 1; EvSettle 1 [fulfilled A_filled]].

Definition drained_world : world :=
  default initial_world (run initial_world drained_trace).

Definition idle_world : world :=
  default initial_world (step drained_world (EvTick 1)).

Definition remount_trace : list event :=
  [EvSettle 0 [fulfilled A_submitted]; EvStartPolling; EvTick 2].

Definition remount_world : world :=
  default initial_world (run idle_world remount_trace).

(** A request is out when [stopPolling] is called. *)
Definition stopped_trace : list event :=
  [EvAddOrder A_submitted; EvTick 1; EvStopPolling].

Definition stopped_world : world :=
  default initial_world (run initial_world stopped_trace).

Definition after_stop_world : world :=
  default initial_world (step stopped_world (EvSettle 0 [fulfilled A_filled])).

(** In the overlap, the batch still out settles with a record the
    cache does not know and a rejected request. *)
Definition unmatched_response : event :=
  EvSettle 0 [fulfilled (sample "Z" "FILLED" 10); rejected "Network Error"].

Definition unmatched_world : world :=
  default initial_world (step overlap_world unmatched_response).

(** A terminal record is added while another order is still active. *)
Definition busy_world : world := addOrder B_submitted initial_world.

(** ** Closed forms of the store operations *)

(** The records a sequence of [addOrder] calls appends: those whose id
    has not been seen, neither in the cache nor earlier in the sequence. *)
Fixpoint keep_first (seen : list string) (os : list order) : list order :=
  match os with
  | [] => []
  | o :: os' =>
      if decide (id o ∈ seen) then keep_first seen os'
      else o :: keep_first (seen ++ [id o]) os'
  end.

(** The last fulfilled entry of a batch that carries the id [i]. *)
Fixpoint last_fulfilled (i : string) (rs : list settled) : option order :=
  match rs with
  | [] => None
  | r :: rs' =>
      match last_fulfilled i rs' with
      | Some u => Some u
      | None =>
          match r with
          | fulfilled u => if decide (id u = i) then Some u else None
          | rejected _ => None
          end
      end
  end.

(** The ids carried by the fulfilled entries of a batch. *)
Definition response_ids (rs : list settled) : list string :=
  omap (λ r, match r with fulfilled u => Some (id u) | rejected _ => None end) rs.

(** ** The status endpoint ([api/tradeService.js]) *)

(** The path [getOrderStatus] requests: [`/trade/order/${orderId}`]. *)
Definition getOrderStatus (orderId : string) : string :=
  "/trade/order/" +:+ orderId.

(** ** The order panel ([components/trading/OrderPanel.jsx]) *)

(** [symbol.replace('/', '')]: a string pattern replaces its first
    occurrence only. *)
Fixpoint replace_slash (symbol : string) : string :=
  match symbol with
  | EmptyString => EmptyString
  | String c rest =>
      if Ascii.eqb c "/"%char then rest else String c (replace_slash rest)
  end.

Fixpoint has_slash (s : string) : bool :=
  match s with
  | EmptyString => false
  | String c rest => Ascii.eqb c "/"%char || has_slash rest
  end.

(** ** Polling rounds *)

(** [n] ticks of the timer [h], the batch of each settling with every
    request rejected before the next tick; [k] is the position the
    suspended call takes among those in flight, [a] the number of
    requests of a batch. *)
Definition failing_rounds (n : nat) (h : positive) (k a : nat) : list event :=
  mjoin (replicate n [EvTick h; EvSettle k (replicate a (rejected "Network Error"))]).

(** [n] ticks of the timer [h] with no batch settling in between. *)
Definition silent_ticks (n : nat) (h : positive) : list event :=
  replicate n (EvTick h).

(** ** More scenarios *)

(** Two polls are suspended: the first asked for [A], the second, after
    [B] was added, for [A] and [B]. *)
Definition two_batches_trace : list event :=
  [EvAddOrder A_submitted; EvTick 1; EvAddOrder B_submitted; EvTick 1].

Definition two_batches_world : world :=
  default initial_world (run initial_world two_batches_trace).

(** ** The orders table ([components/trading/TradesPanel.jsx]) *)

(** The value of [o.parent_order_id] where the code tests it for
    truthiness: [null], [undefined] and the empty string are falsy. *)
Definition parent_of (o : order) : option string :=
  match parent_order_id o with
  | Some p => if decide (p = "") then None else Some p
  | None => None
  end.

(** [orders.filter(o => o.is_algorithmic)] *)
Definition parentOrders (os : list order) : list order :=
  filter (λ o, is_algorithmic o = true) os.

(** [orders.filter(o => !o.is_algorithmic && !o.parent_order_id)] *)
Definition regularOrders (os : list order) : list order :=
  filter (λ o, is_algorithmic o = false ∧ parent_of o = None) os.

(** The property names an object literal answers through
    [Object.prototype].  Read on a fresh [{}], each yields a function or
    (for [__proto__]) the prototype object: a truthy value without a
    [push], a [filter] or a [map]. *)
Definition Object_prototype : list string :=
  ["constructor"; "__defineGetter__"; "__defineSetter__"; "hasOwnProperty";
   "__lookupGetter__"; "__lookupSetter__"; "isPrototypeOf";
   "propertyIsEnumerable"; "toString"; "valueOf"; "__proto__";
   "toLocaleString"].

Definition inherited (key : string) : bool :=
  bool_decide (key ∈ Object_prototype).

(** The reducer of [childOrdersByParent]; [acc] holds the own
    properties of the accumulator object, [None] is the [TypeError] of
    calling [push] on an inherited value. *)
Definition group_child (acc : option (gmap string (list order))) (o : order)
  : option (gmap string (list order)) :=
  match acc with
  | None => None
  | Some m =>
      match parent_of o with
      | None => Some m
      | Some p =>
          match m !! p with
          | Some cs => Some (<[p := cs ++ [o]]> m)
          | None => if inherited p then None else Some (<[p := [o]]> m)
          end
      end
  end.

(** [orders.reduce((acc, o) => { ... }, {})] *)
Definition childOrdersByParent (os : list order)
  : option (gmap string (list order)) :=
  foldl group_child (Some ∅) os.

(** [childOrdersByParent[order.id] || []] as [ParentOrderDisclosure]
    uses it ([children.filter], [children.map]); [None] is the
    [TypeError] of calling these on an inherited value. *)
Definition children_of (m : gmap string (list order)) (parent : order)
  : option (list order) :=
  match m !! id parent with
  | Some cs => Some cs
  | None => if inherited (id parent) then None else Some []
  end.

(** [children.filter(c => c.status === 'FILLED').length] *)
Definition filledChildren (children : list order) : nat :=
  length (filter (λ c, status c = "FILLED") children).

(** [order.metadata?.algo_params?.num_children || children.length || 1],
    with [None] for a missing [num_children]; zero is falsy. *)
Definition totalChildren (num_children : option Z) (children : list order) : Z :=
  match num_children with
  | Some n =>
      if decide (n = 0%Z) then
        if decide (length children = 0) then 1%Z else Z.of_nat (length children)
      else n
  | None =>
      if decide (length children = 0) then 1%Z else Z.of_nat (length children)
  end.

(** What [OrdersTable] puts on screen: the empty-state paragraph, or the
    table with one disclosure per algorithmic order (its child rows
    inside) followed by one row per regular order. *)
Inductive row :=
  | ParentOrderDisclosure (parent : order) (children : list order)
  | OrderRow (o : order).

Inductive view :=
  | NoOpenOrders
  | Table (rows : list row).

(** The render of one [OrderRow], as far as it can fail.  Two cells
    call a method on a field of the order: [StatusBadge] calls
    [status.replace('_', ' ')], defined because [status] is a string in
    every record, and the price cell is
    [order.price?.toFixed(2) || 'Market'], where [?.] covers a missing
    price only: a number has [toFixed], a string has not, and calling it
    is a [TypeError] ([None]).  The other cells print fields as they
    are. *)
Definition render_OrderRow (o : order) : option order :=
  match price o with
  | Some (price_text _) => None
  | Some (price_number _) | None => Some o
  end.

(** The render of one [ParentOrderDisclosure]: its children are read
    from the grouping and each is rendered as an [OrderRow]. *)
Definition render_ParentOrderDisclosure (m : gmap string (list order))
    (parent : order) : option row :=
  match children_of m parent with
  | None => None
  | Some cs => ParentOrderDisclosure parent <$> mapM render_OrderRow cs
  end.

(** The render of [OrdersTable] down to its rows; [None] is a
    [TypeError] thrown on the way: by the reducer, by a disclosure
    reading its children, or by a row formatting its price. *)
Definition OrdersTable (os : list order) : option view :=
  match childOrdersByParent os with
  | None => None
  | Some m =>
      if decide (length os = 0) then Some NoOpenOrders
      else
        match mapM (render_ParentOrderDisclosure m) (parentOrders os),
              mapM render_OrderRow (regularOrders os) with
        | Some parents, Some regular =>
            Some (Table (parents ++ (OrderRow <$> regular)))
        | _, _ => None
        end
  end.

(** The orders a list of rows shows, top to bottom. *)
Definition row_orders (r : row) : list order :=
  match r with
  | ParentOrderDisclosure p cs => p :: cs
  | OrderRow o => [o]
  end.

Definition displayed (rs : list row) : list order := rs ≫= row_orders.

(** The cached orders that name [p] as their parent. *)
Definition children_in (os : list order) (p : string) : list order :=
  filter (λ o, parent_of o = Some p) os.

(** The price of [o] is a string. *)
Definition text_priced (o : order) : Prop :=
  ∃ s, price o = Some (price_text s).

(** The parent of [o] is the id of one of [ps]. *)
Definition parent_in (ps : list order) (o : order) : Prop :=
  match parent_of o with
  | Some p => p ∈ ids ps
  | None => False
  end.

#[global] Instance parent_in_dec ps o : Decision (parent_in ps o).
Proof. unfold parent_in. destruct (parent_of o); apply _. Defined.

(** No own property of the accumulator has an inherited name. *)
Definition own_keys_ok (m : gmap string (list order)) : Prop :=
  ∀ i, inherited i = true → m !! i = None.

(** A TWAP parent, two of its slices, a manual order, and a slice whose
    parent is not cached. *)
Definition twap_parent : order :=
  {| id := "P"; status := "ACCEPTED"; symbol := "BTC/USDT"; exchange := "auto";
     price := None;
     quantity_requested := 9; quantity_filled := 3;
     parent_order_id := None; is_algorithmic := true;
     is_paper_trade := true |}.

Definition slice (i st p : string) : order :=
  {| id := i; status := st; symbol := "BTC/USDT"; exchange := "binance";
     price := None;
     quantity_requested := 3; quantity_filled := 0;
     parent_order_id := Some p; is_algorithmic := false;
     is_paper_trade := true |}.

Definition table_orders : list order :=
  [slice "P1" "FILLED" "P"; A_submitted; twap_parent; slice "P2" "SUBMITTED" "P"].

Definition orphan : order := slice "Q1" "SUBMITTED" "Q".

(** A limit order whose price came as text. *)
Definition text_priced_order : order :=
  {| id := "L"; status := "ACCEPTED"; symbol := "BTC/USDT"; exchange := "binance";
     price := Some (price_text "65000.00");
     quantity_requested := 1; quantity_filled := 0;
     parent_order_id := None; is_algorithmic := false;
     is_paper_trade := true |}.

(** ** The merge keeps the ids where they are *)

Section Merge.
Implicit Types (os draft : list order) (rs : list settled) (u o : order).

Lemma findIndex_Some i os n :
  findIndex i os = Some n →
  ∃ o, os !! n = Some o ∧ id o = i ∧ ∀ m p, os !! m = Some p → m < n → id p ≠ i.
Proof.
  unfold findIndex. destruct (list_find _ os) as [[n' o]|] eqn:E; [|done].
  intros [= <-]. apply list_find_Some in E as (? & ? & ?). eauto.
Qed.

Lemma findIndex_None i os : findIndex i os = None → i ∉ ids os.
Proof.
  unfold findIndex. destruct (list_find _ os) as [[n' o]|] eqn:E; [done|].
  intros _. apply list_find_None in E. unfold ids.
  intros (o & -> & Ho)%list_elem_of_fmap.
  rewrite Forall_forall in E. by apply (E o).
Qed.

Lemma findIndex_is_Some i os : i ∈ ids os → is_Some (findIndex i os).
Proof.
  intros Hi. destruct (findIndex i os) eqn:E; [eauto|].
  by apply findIndex_None in E.
Qed.

Lemma ids_apply_result draft r : ids (apply_result draft r) = ids draft.
Proof.
  destruct r as [u|reason]; simpl; [|done].
  destruct (findIndex (id u) draft) as [n|] eqn:E; [|done].
  apply findIndex_Some in E as (o & Hn & Ho & _).
  unfold ids. rewrite list_fmap_insert. apply list_insert_id.
  by rewrite list_lookup_fmap, Hn, <- Ho.
Qed.

Lemma ids_merge_results os rs : ids (merge_results os rs) = ids os.
Proof.
  revert os. induction rs as [|r rs IH]; intros os; [done|].
  simpl. unfold merge_results in IH. by rewrite IH, ids_apply_result.
Qed.

Lemma length_ids os : length (ids os) = length os.
Proof. apply length_fmap. Qed.

Lemma length_merge_results os rs : length (merge_results os rs) = length os.
Proof. by rewrite <- !length_ids, ids_merge_results. Qed.

(** With distinct ids, the index of an id is the only place it occurs. *)
Lemma findIndex_NoDup os n o :
  NoDup (ids os) → os !! n = Some o → findIndex (id o) os = Some n.
Proof.
  intros Hnd Hn.
  destruct (findIndex_is_Some (id o) os) as [m Hm].
  { apply list_elem_of_fmap. exists o. split; [done|]. by eapply list_elem_of_lookup_2. }
  rewrite Hm. f_equal.
  apply findIndex_Some in Hm as (p & Hp & Hid & _).
  eapply NoDup_lookup; [exact Hnd|..]; unfold ids; rewrite list_lookup_fmap.
  - by rewrite Hp; simpl; rewrite Hid.
  - by rewrite Hn.
Qed.

(** A result for another id leaves the slot of [i] alone. *)
Lemma apply_result_other draft r n i :
  ids draft !! n = Some i →
  (∀ u, r = fulfilled u → id u ≠ i) →
  apply_result draft r !! n = draft !! n.
Proof.
  intros Hn Hr. destruct r as [u|reason]; simpl; [|done].
  destruct (findIndex (id u) draft) as [m|] eqn:E; [|done].
  apply findIndex_Some in E as (o & Hm & Ho & _).
  apply list_lookup_insert_ne. intros ->.
  unfold ids in Hn. rewrite list_lookup_fmap, Hm in Hn.
  injection Hn as Hn. apply (Hr u); [done|congruence].
Qed.

Lemma merge_results_other os rs n i :
  ids os !! n = Some i →
  (∀ u, fulfilled u ∈ rs → id u ≠ i) →
  merge_results os rs !! n = os !! n.
Proof.
  revert os. induction rs as [|r rs IH]; intros os Hn Hrs; [done|].
  simpl. unfold merge_results in IH. rewrite IH.
  - apply apply_result_other with i; [done|].
    intros u ->. apply Hrs. by left.
  - by rewrite ids_apply_result.
  - intros u Hu. apply Hrs. by right.
Qed.

(** Rejected entries do not take part in the merge. *)
Lemma merge_results_fulfilled_only os rs :
  merge_results os rs = merge_results os (filter (λ r, is_fulfilled r = true) rs).
Proof.
  revert os. induction rs as [|[u|reason] rs IH]; intros os; [done|..].
  - rewrite filter_cons. simpl. apply IH.
  - rewrite filter_cons. simpl. apply IH.
Qed.

(** The last fulfilled entry for an id is what the slot of that id
    holds after the merge. *)
Lemma merge_results_last os rs j u n :
  rs !! j = Some (fulfilled u) →
  findIndex (id u) os = Some n →
  (∀ j' v, j < j' → rs !! j' = Some (fulfilled v) → id v ≠ id u) →
  merge_results os rs !! n = Some u.
Proof.
  revert os j. induction rs as [|r rs IH]; intros os j Hj Hn Hlast; [done|].
  destruct j as [|j]; simpl in Hj.
  - injection Hj as ->. simpl. rewrite Hn.
    pose proof Hn as (o & Ho & Hid & _)%findIndex_Some.
    rewrite (merge_results_other _ _ n (id u)).
    + apply list_lookup_insert_eq. by eapply lookup_lt_Some.
    + unfold ids. rewrite list_fmap_insert. apply list_lookup_insert_eq.
      rewrite length_fmap. by eapply lookup_lt_Some.
    + intros v [j' Hv]%list_elem_of_lookup_1.
      apply (Hlast (S j') v); [lia|done].
  - simpl. apply (IH _ j); [done|..].
    + destruct (findIndex (id u) (apply_result os r)) as [m|] eqn:E.
      * f_equal. apply findIndex_Some in E as (p & Hp & Hpid & Hmin).
        pose proof Hn as (o & Ho & Hid & Hmin')%findIndex_Some.
        assert (Hids : ∀ q, id <$> apply_result os r !! q = id <$> os !! q).
        { intros q. rewrite <- !list_lookup_fmap.
          change (ids (apply_result os r) !! q = ids os !! q).
          by rewrite ids_apply_result. }
        destruct (lt_eq_lt_dec m n) as [[Hlt| ->]|Hgt]; [|done|].
        -- pose proof (Hids m) as Hq. rewrite Hp in Hq. simpl in Hq.
           destruct (os !! m) as [q|] eqn:Eq; [|done].
           injection Hq as Hq. exfalso. apply (Hmin' m q); [done..|congruence].
        -- pose proof (Hids n) as Hq. rewrite Ho in Hq. simpl in Hq.
           destruct (apply_result os r !! n) as [q|] eqn:Eq; [|done].
           injection Hq as Hq. exfalso. apply (Hmin n q); [done..|congruence].
      * apply findIndex_None in E. rewrite ids_apply_result in E.
        exfalso. apply E. pose proof Hn as (o & Ho & Hid & _)%findIndex_Some.
        apply list_elem_of_fmap. exists o. split; [done|].
        by eapply list_elem_of_lookup_2.
    + intros j' v Hlt. apply (Hlast (S j') v). lia.
Qed.
End Merge.

(** ** What each operation leaves alone *)

Section Frames.
Implicit Types (w : world) (o : order).

Lemma orders_startPolling w : orders (state (startPolling w)) = orders (state w).
Proof. unfold startPolling. by destruct (pollingInterval (state w)). Qed.

Lemma orders_stopPolling w : orders (state (stopPolling w)) = orders (state w).
Proof. unfold stopPolling. by destruct (pollingInterval (state w)). Qed.

Lemma inflight_startPolling w : inflight (startPolling w) = inflight w.
Proof. unfold startPolling. by destruct (pollingInterval (state w)). Qed.

Lemma inflight_stopPolling w : inflight (stopPolling w) = inflight w.
Proof. unfold stopPolling. by destruct (pollingInterval (state w)). Qed.

Lemma sent_startPolling w : sent (startPolling w) = sent w.
Proof. unfold startPolling. by destruct (pollingInterval (state w)). Qed.

Lemma sent_stopPolling w : sent (stopPolling w) = sent w.
Proof. unfold stopPolling. by destruct (pollingInterval (state w)). Qed.

Lemma pollingInterval_stopPolling w : pollingInterval (state (stopPolling w)) = None.
Proof. unfold stopPolling. by destruct (pollingInterval (state w)) eqn:E. Qed.

Lemma pollingInterval_startPolling w :
  pollingInterval (state (startPolling w)) =
    Some (default (next_handle w) (pollingInterval (state w))).
Proof. unfold startPolling. by destruct (pollingInterval (state w)) eqn:E. Qed.

Lemma orders_pollOrders w : orders (state (pollOrders w)) = orders (state w).
Proof. unfold pollOrders. case_decide; [apply orders_stopPolling|done]. Qed.

Lemma sent_pollOrders w :
  sent (pollOrders w) = sent w ++ ids (activeOrders (orders (state w))).
Proof.
  unfold pollOrders. case_decide as E; [|done].
  apply nil_length_inv in E. rewrite E, sent_stopPolling. simpl.
  by rewrite app_nil_r.
Qed.

Lemma push_order_cached o (s : store) :
  id o ∈ ids (orders s) → push_order o s = s.
Proof.
  intros (p & Hp & Hin)%list_elem_of_fmap. unfold push_order.
  rewrite bool_decide_eq_true_2; [done|]. apply Exists_exists. eauto.
Qed.

Lemma push_order_fresh o (s : store) :
  id o ∉ ids (orders s) → orders (push_order o s) = orders s ++ [o].
Proof.
  intros Hid. unfold push_order. rewrite bool_decide_eq_false_2; [done|].
  intros (p & Hin & Hp)%Exists_exists. apply Hid, list_elem_of_fmap. eauto.
Qed.

Lemma orders_addOrder o w :
  orders (state (addOrder o w)) =
    if decide (id o ∈ ids (orders (state w))) then orders (state w)
    else orders (state w) ++ [o].
Proof.
  unfold addOrder. rewrite orders_startPolling. simpl. case_decide.
  - by rewrite push_order_cached.
  - by apply push_order_fresh.
Qed.

Lemma inflight_addOrder o w : inflight (addOrder o w) = inflight w.
Proof. unfold addOrder. by rewrite inflight_startPolling. Qed.

Lemma sent_addOrder o w : sent (addOrder o w) = sent w.
Proof. unfold addOrder. by rewrite sent_startPolling. Qed.

Lemma pollingInterval_push_order o (s : store) :
  pollingInterval (push_order o s) = pollingInterval s.
Proof. unfold push_order. by case_bool_decide. Qed.

Lemma settle_Some k rs w w' :
  settle k rs w = Some w' →
  ∃ batch, inflight w !! k = Some batch ∧ length rs = length batch ∧
    orders (state w') = merge_results (orders (state w)) rs ∧
    pollingInterval (state w') = pollingInterval (state w) ∧
    timers w' = timers w ∧ sent w' = sent w ∧
    inflight w' = delete k (inflight w).
Proof.
  unfold settle. destruct (inflight w !! k) as [batch|]; [|done].
  case_decide; [|done]. intros [= <-]. exists batch. by simpl.
Qed.
End Frames.

(** ** Invariants of the event loop *)

Section Invariants.
Implicit Types (w : world) (o : order) (e : event).

Lemma NoDup_ids_activeOrders (os : list order) :
  NoDup (ids os) → NoDup (ids (activeOrders os)).
Proof.
  intros H. eapply sublist_NoDup; [exact H|].
  unfold ids, activeOrders. apply fmap_sublist, sublist_filter.
Qed.

Lemma ids_activeOrders_subseteq (os : list order) :
  ids (activeOrders os) ⊆ ids os.
Proof.
  intros x (o & -> & Ho)%list_elem_of_fmap.
  apply list_elem_of_fmap. exists o. split; [done|].
  unfold activeOrders in Ho. by apply list_elem_of_filter in Ho as [_ ?].
Qed.

Lemma inv_initial : inv initial_world.
Proof. split; simpl; [constructor|done|constructor]. Qed.

Lemma inv_startPolling w : inv w → inv (startPolling w).
Proof.
  intros Hw. pose proof Hw as [H1 H2 H3]. unfold startPolling.
  destruct (pollingInterval (state w)) eqn:E; [done|].
  split; simpl; [done| |done]. rewrite H2, ?E. simpl.
  apply union_empty_r_L.
Qed.

Lemma inv_stopPolling w : inv w → inv (stopPolling w).
Proof.
  intros Hw. pose proof Hw as [H1 H2 H3]. unfold stopPolling.
  destruct (pollingInterval (state w)) eqn:E; [|done].
  split; simpl; [done| |done]. rewrite H2, ?E. simpl.
  apply difference_diag_L.
Qed.

Lemma inv_addOrder o w : inv w → inv (addOrder o w).
Proof.
  intros [H1 H2 H3]. apply inv_startPolling.
  split; simpl; [|by rewrite pollingInterval_push_order|].
  - destruct (decide (id o ∈ ids (orders (state w)))) as [Hin|Hin].
    + by rewrite push_order_cached.
    + rewrite push_order_fresh by done. unfold ids. rewrite fmap_app.
      apply NoDup_app. split_and!; [done| |apply NoDup_singleton].
      intros x Hx ->%list_elem_of_singleton. by apply Hin.
  - eapply Forall_impl; [exact H3|]. intros batch [Hnd Hsub]. split; [done|].
    destruct (decide (id o ∈ ids (orders (state w)))) as [Hin|Hin].
    + by rewrite push_order_cached.
    + rewrite push_order_fresh by done. unfold ids. rewrite fmap_app.
      intros x Hx. apply elem_of_app. left. by apply Hsub.
Qed.

Lemma inv_pollOrders w : inv w → inv (pollOrders w).
Proof.
  intros Hw. unfold pollOrders. case_decide; [by apply inv_stopPolling|].
  destruct Hw as [H1 H2 H3]. split; simpl; [done..|].
  apply Forall_app. split; [done|]. apply Forall_singleton. split.
  - by apply NoDup_ids_activeOrders.
  - apply ids_activeOrders_subseteq.
Qed.

Lemma inv_settle k rs w w' : inv w → settle k rs w = Some w' → inv w'.
Proof.
  intros [H1 H2 H3] (batch & _ & _ & Ho & Hp & Ht & _ & Hi)%settle_Some.
  split.
  - by rewrite Ho, ids_merge_results.
  - by rewrite Ht, Hp.
  - rewrite Hi, Ho, ids_merge_results. by apply Forall_delete.
Qed.

Lemma inv_step w e w' : inv w → step w e = Some w' → inv w'.
Proof.
  intros Hw. destruct e as [o| | |h|k rs]; simpl.
  - intros [= <-]. by apply inv_addOrder.
  - intros [= <-]. by apply inv_startPolling.
  - intros [= <-]. by apply inv_stopPolling.
  - case_decide; [|done]. intros [= <-]. by apply inv_pollOrders.
  - by apply inv_settle.
Qed.

Lemma run_app w es1 es2 :
  run w (es1 ++ es2) = run w es1 ≫= λ w', run w' es2.
Proof.
  revert w. induction es1 as [|e es1 IH]; intros w; [done|].
  simpl. destruct (step w e); [apply IH|done].
Qed.

(** Any property kept by every step holds along every run. *)
Lemma run_preserves (P : world → Prop) :
  (∀ w e w', P w → step w e = Some w' → P w') →
  ∀ es w w', P w → run w es = Some w' → P w'.
Proof.
  intros Hstep. induction es as [|e es IH]; intros w w' Hw; simpl.
  - by intros [= <-].
  - destruct (step w e) as [w1|] eqn:E; [|done]. eauto.
Qed.

Lemma reachable_inv w : reachable w → inv w.
Proof.
  intros [es Hes]. eapply (run_preserves inv); [apply @inv_step| |exact Hes].
  apply inv_initial.
Qed.

Lemma reachable_initial : reachable initial_world.
Proof. by exists []. Qed.

Lemma reachable_run w es w' : reachable w → run w es = Some w' → reachable w'.
Proof.
  intros [es0 H0] H. exists (es0 ++ es). by rewrite run_app, H0.
Qed.

Lemma reachable_step w e w' : reachable w → step w e = Some w' → reachable w'.
Proof.
  intros Hw He. apply (reachable_run w [e]); [done|]. simpl. by rewrite He.
Qed.
End Invariants.


(** ** Records by id and by position *)

Section Slots.
Implicit Types (os : list order) (rs : list settled) (o u : order).

Lemma find_order_Some i os o :
  find_order i os = Some o → o ∈ os ∧ id o = i.
Proof.
  unfold find_order. destruct (list_find _ os) as [[n p]|] eqn:E; [|done].
  intros [= <-]. apply list_find_Some in E as (Hn & Hp & _).
  split; [by eapply list_elem_of_lookup_2|done].
Qed.

Lemma find_order_None i os : find_order i os = None ↔ i ∉ ids os.
Proof.
  unfold find_order. split.
  - destruct (list_find _ os) as [[n p]|] eqn:E; [done|]. intros _.
    apply findIndex_None. unfold findIndex. by rewrite E.
  - intros Hi. destruct (list_find _ os) as [[n p]|] eqn:E; [|done].
    exfalso. apply Hi. apply list_find_Some in E as (Hn & Hp & _).
    apply list_elem_of_fmap. exists p. split; [done|].
    by eapply list_elem_of_lookup_2.
Qed.

(** With distinct ids, the record found under its id is the record. *)
Lemma find_order_lookup os n o :
  NoDup (ids os) → os !! n = Some o → find_order (id o) os = Some o.
Proof.
  intros Hnd Hn. pose proof (findIndex_NoDup os n o Hnd Hn) as Hf.
  unfold findIndex in Hf. unfold find_order.
  destruct (list_find _ os) as [[m p]|] eqn:E; [|done].
  simpl in Hf. injection Hf as ->.
  apply list_find_Some in E as (Hp & _). simpl. congruence.
Qed.

Lemma find_order_unique os i o o' :
  NoDup (ids os) → find_order i os = Some o → o' ∈ os → id o' = i → o' = o.
Proof.
  intros Hnd Ho [n Hn]%list_elem_of_lookup_1 <-.
  rewrite (find_order_lookup os n o') in Ho by done. congruence.
Qed.

(** One result either leaves a slot alone or puts its own body there,
    and then the body carries the id of the slot. *)
Lemma apply_result_slot os r n i :
  ids os !! n = Some i →
  apply_result os r !! n = os !! n ∨
  ∃ u, r = fulfilled u ∧ id u = i ∧ apply_result os r !! n = Some u.
Proof.
  intros Hn. destruct r as [u|reason]; [|by left].
  destruct (decide (id u = i)) as [Hu|Hu].
  - simpl. destruct (findIndex (id u) os) as [m|] eqn:E; [|by left].
    destruct (decide (m = n)) as [->|Hne].
    + right. exists u. split_and!; [done..|].
      apply list_lookup_insert_eq.
      apply lookup_lt_Some in Hn. by rewrite length_ids in Hn.
    + left. by apply list_lookup_insert_ne.
  - left. apply apply_result_other with i; [done|]. by intros ? [= <-].
Qed.

Lemma merge_results_slot os rs n i :
  ids os !! n = Some i →
  ∃ o', merge_results os rs !! n = Some o' ∧ id o' = i ∧
        (os !! n = Some o' ∨ fulfilled o' ∈ rs).
Proof.
  revert os. induction rs as [|r rs IH]; intros os Hn.
  - unfold ids in Hn. rewrite list_lookup_fmap in Hn.
    destruct (os !! n) as [o|] eqn:E; [|done]. injection Hn as Hn.
    exists o. by eauto.
  - simpl. destruct (IH (apply_result os r)) as (o' & Ho' & Hid & Hsrc).
    { by rewrite ids_apply_result. }
    exists o'. split_and!; [done..|].
    destruct Hsrc as [Hsrc|Hsrc]; [|right; by right].
    destruct (apply_result_slot os r n i Hn) as [Heq|(u & -> & _ & Hu)].
    + left. congruence.
    + assert (o' = u) as -> by congruence. right. by left.
Qed.

(** Under the endpoint's contract no two fulfilled entries of a batch
    carry the same id. *)
Lemma answers_lookup batch rs j r :
  answers batch rs → rs !! j = Some r →
  ∃ o, batch !! j = Some o ∧ answers_one o r.
Proof. intros H Hj. by eapply Forall2_lookup_r. Qed.

Lemma answers_no_later batch rs j u :
  NoDup (ids batch) → answers batch rs → rs !! j = Some (fulfilled u) →
  ∀ j' v, j < j' → rs !! j' = Some (fulfilled v) → id v ≠ id u.
Proof.
  intros Hnd Hans Hj j' v Hlt Hj' Heq.
  destruct (answers_lookup batch rs j _ Hans Hj) as (o & Ho & Hou).
  destruct (answers_lookup batch rs j' _ Hans Hj') as (p & Hp & Hpv).
  simpl in Hou, Hpv.
  assert (j = j'); [|lia].
  eapply NoDup_lookup; [exact Hnd|..]; unfold ids; rewrite list_lookup_fmap.
  - by rewrite Ho.
  - rewrite Hp. simpl. congruence.
Qed.

Lemma answers_rejected_untouched batch rs j o reason :
  NoDup (ids batch) → answers batch rs →
  batch !! j = Some o → rs !! j = Some (rejected reason) →
  ∀ u, fulfilled u ∈ rs → id u ≠ id o.
Proof.
  intros Hnd Hans Ho Hj u [j' Hu]%list_elem_of_lookup_1 Heq.
  destruct (answers_lookup batch rs j' _ Hans Hu) as (p & Hp & Hpu).
  simpl in Hpu.
  assert (j = j') as <-; [|congruence].
  eapply NoDup_lookup; [exact Hnd|..]; unfold ids; rewrite list_lookup_fmap.
  - by rewrite Ho.
  - rewrite Hp. simpl. congruence.
Qed.
End Slots.

(** ** One step, seen from one slot *)

Section Steps.
Implicit Types (w : world) (o u : order) (e : event) (os : list order)
  (rs : list settled).

(** A step keeps every slot's id; the record in the slot stays the
    same unless a settling batch brings a fulfilled entry, which then
    is the new record. *)
Lemma step_slot w e w' n o :
  step w e = Some w' → orders (state w) !! n = Some o →
  ∃ o', orders (state w') !! n = Some o' ∧ id o' = id o ∧
        (o' = o ∨ ∃ k rs, e = EvSettle k rs ∧ fulfilled o' ∈ rs).
Proof.
  intros He Hn. destruct e as [p| | |h|k rs]; simpl in He.
  - injection He as <-. exists o. split_and!; [|done|by left].
    rewrite orders_addOrder. case_decide; [done|]. by apply lookup_app_l_Some.
  - injection He as <-. exists o. by rewrite orders_startPolling; eauto.
  - injection He as <-. exists o. by rewrite orders_stopPolling; eauto.
  - case_decide; [|done]. injection He as <-. exists o.
    by rewrite orders_pollOrders; eauto.
  - apply settle_Some in He as (batch & _ & _ & Ho & _).
    destruct (merge_results_slot (orders (state w)) rs n (id o))
      as (o' & Ho' & Hid & Hsrc).
    { unfold ids. by rewrite list_lookup_fmap, Hn. }
    exists o'. rewrite Ho. split_and!; [done..|].
    destruct Hsrc as [Hsrc|Hsrc]; [left; congruence|right; eauto].
Qed.

Lemma sent_step w e w' :
  step w e = Some w' →
  sent w' = sent w ∨
  (∃ h, e = EvTick h) ∧ sent w' = sent w ++ ids (activeOrders (orders (state w))).
Proof.
  destruct e as [p| | |h|k rs]; simpl.
  - intros [= <-]. left. apply sent_addOrder.
  - intros [= <-]. left. apply sent_startPolling.
  - intros [= <-]. left. apply sent_stopPolling.
  - case_decide; [|done]. intros [= <-]. right. split; [by eauto|].
    apply sent_pollOrders.
  - intros (batch & _ & _ & _ & _ & _ & Hs & _)%settle_Some. by left.
Qed.

(** A cached terminal record is not among the active orders. *)
Lemma terminal_not_active os i o :
  NoDup (ids os) → find_order i os = Some o → is_terminal (status o) = true →
  i ∉ ids (activeOrders os).
Proof.
  intros Hnd Ho Ht (p & -> & Hp)%list_elem_of_fmap.
  unfold activeOrders in Hp. apply list_elem_of_filter in Hp as [Hact Hin].
  assert (p = o) as -> by by eapply find_order_unique. congruence.
Qed.

Lemma non_terminal_active os i o :
  find_order i os = Some o → is_terminal (status o) = false →
  i ∈ ids (activeOrders os).
Proof.
  intros [Hin <-]%find_order_Some Ht. apply list_elem_of_fmap.
  exists o. split; [done|]. unfold activeOrders. by apply list_elem_of_filter.
Qed.

Lemma reopens_one_false i u :
  reopens_one i (fulfilled u) = false → id u = i → is_terminal (status u) = true.
Proof.
  simpl. intros H Hid. rewrite bool_decide_eq_true_2 in H by done.
  simpl in H. by destruct (is_terminal (status u)).
Qed.

Lemma existsb_false_elem {A} (f : A → bool) (l : list A) x :
  existsb f l = false → x ∈ l → f x = false.
Proof.
  intros H Hx. destruct (f x) eqn:E; [|done].
  rewrite <- H. symmetry. apply existsb_exists. exists x.
  split; [by apply list_elem_of_In|done].
Qed.

(** A step that brings no non-terminal response for [i] keeps the
    record of [i] terminal and sends no request for [i]. *)
Lemma step_keeps_terminal w e w' i o :
  inv w → step w e = Some w' → reopens i e = false →
  cached i w = Some o → is_terminal (status o) = true →
  (∃ o', cached i w' = Some o' ∧ is_terminal (status o') = true)
  ∧ ∃ extra, sent w' = sent w ++ extra ∧ i ∉ extra.
Proof.
  intros Hw He Hre Hc Ht. pose proof (inv_step _ _ _ Hw He) as [Hnd' _ _].
  pose proof Hw as [Hnd _ _]. split.
  - pose proof Hc as [[n Hn]%list_elem_of_lookup_1 Hid]%find_order_Some.
    destruct (step_slot _ _ _ _ _ He Hn) as (o' & Hn' & Hid' & Hsrc).
    exists o'. split.
    + unfold cached. rewrite <- Hid, <- Hid'. by eapply find_order_lookup.
    + destruct Hsrc as [->|(k & rs & -> & Hin)]; [done|].
      simpl in Hre. apply reopens_one_false with i; [|congruence].
      by eapply (existsb_false_elem _ rs).
  - destruct (sent_step _ _ _ He) as [Hs|[_ Hs]].
    + exists []. rewrite app_nil_r. split; [done|]. apply not_elem_of_nil.
    + eexists. split; [exact Hs|]. by eapply terminal_not_active.
Qed.

Lemma run_keeps_terminal es w w' i o :
  inv w → run w es = Some w' →
  forallb (λ e, negb (reopens i e)) es = true →
  cached i w = Some o → is_terminal (status o) = true →
  (∃ o', cached i w' = Some o' ∧ is_terminal (status o') = true)
  ∧ ∃ extra, sent w' = sent w ++ extra ∧ i ∉ extra.
Proof.
  revert w o. induction es as [|e es IH]; intros w o Hw Hrun Hall Hc Ht.
  - injection Hrun as <-. split; [by eauto|]. exists [].
    rewrite app_nil_r. split; [done|]. apply not_elem_of_nil.
  - simpl in Hrun, Hall. destruct (step w e) as [w1|] eqn:He; [|done].
    apply andb_true_iff in Hall as [Hre%negb_true_iff Hall].
    destruct (step_keeps_terminal _ _ _ _ _ Hw He Hre Hc Ht)
      as [(o1 & Hc1 & Ht1) (x1 & Hs1 & Hx1)].
    destruct (IH w1 o1 (inv_step _ _ _ Hw He) Hrun Hall Hc1 Ht1)
      as [Hfin (x2 & Hs2 & Hx2)].
    split; [done|]. exists (x1 ++ x2). rewrite Hs2, Hs1, app_assoc.
    split; [done|]. rewrite elem_of_app. tauto.
Qed.

(** With no timer live and none started, nothing is sent. *)
Lemma step_stays_idle w e w' :
  pollingInterval (state w) = None → timers w = ∅ →
  starts e = false → step w e = Some w' →
  pollingInterval (state w') = None ∧ timers w' = ∅ ∧ sent w' = sent w.
Proof.
  intros Hp Ht Hst. destruct e as [p| | |h|k rs]; simpl in *; try done.
  - intros [= <-]. unfold stopPolling. by rewrite Hp.
  - case_decide as Hh; [|done]. rewrite Ht in Hh.
    by apply not_elem_of_empty in Hh.
  - intros (batch & _ & _ & _ & Hp' & Ht' & Hs & _)%settle_Some.
    by rewrite Hp', Ht', Hs.
Qed.

Lemma run_stays_idle es w w' :
  pollingInterval (state w) = None → timers w = ∅ →
  forallb (λ e, negb (starts e)) es = true → run w es = Some w' →
  pollingInterval (state w') = None ∧ timers w' = ∅ ∧ sent w' = sent w.
Proof.
  revert w. induction es as [|e es IH]; intros w Hp Ht Hall Hrun.
  - by injection Hrun as <-.
  - simpl in Hrun, Hall. destruct (step w e) as [w1|] eqn:He; [|done].
    apply andb_true_iff in Hall as [Hst%negb_true_iff Hall].
    destruct (step_stays_idle _ _ _ Hp Ht Hst He) as (Hp1 & Ht1 & Hs1).
    destruct (IH w1 Hp1 Ht1 Hall Hrun) as (? & ? & ->). done.
Qed.
End Steps.

(** ** The scenarios of the polling cycle, run *)

(** One active order: the tick asks for it, the response fills it, the
    next tick finds nothing active and stops the timer. *)
Example scenario_fill_then_halt :
  (λ w, (orders (state w), pollingInterval (state w), sent w)) <$>
    run initial_world
      [EvAddOrder A_submitted; EvTick 1; EvSettle 0 [fulfilled A_filled]; EvTick 1]
  = Some ([A_filled], None, ["A"]).
Proof. vm_compute. reflexivity. Qed.

(** [A] active and [B] already filled: the tick asks for [A] only. *)
Example scenario_terminal_skipped :
  sent <$> run initial_world
    [EvAddOrder A_submitted; EvAddOrder B_filled; EvTick 1]
  = Some ["A"].
Proof. vm_compute. reflexivity. Qed.

(** The request for [A] is rejected: the record stays, the next tick
    asks again. *)
Example scenario_rejected_then_retried :
  (λ w, (orders (state w), sent w)) <$>
    run initial_world
      [EvAddOrder A_submitted; EvTick 1; EvSettle 0 [rejected "Network Error"];
       EvTick 1]
  = Some ([A_submitted], ["A"; "A"]).
Proof. vm_compute. reflexivity. Qed.

(** A timer that has been cleared does not fire. *)
Example scenario_cleared_timer_is_dead :
  run initial_world [EvAddOrder A_filled; EvTick 1; EvTick 1] = None.
Proof. vm_compute. reflexivity. Qed.
(** ** Claims *)

Section Claims.
Implicit Types (w : world) (o u : order) (e : event) (os : list order)
  (rs : list settled).

Lemma merge_results_unmatched os rs :
  (∀ u, fulfilled u ∈ rs → id u ∉ ids os) → merge_results os rs = os.
Proof.
  induction rs as [|r rs IH]; intros Hrs; [done|]. simpl.
  assert (apply_result os r = os) as ->.
  { destruct r as [u|reason]; simpl; [|done].
    destruct (findIndex (id u) os) as [n|] eqn:E; [|done].
    apply findIndex_Some in E as (p & Hp & Hid & _).
    exfalso. apply (Hrs u); [by left|].
    apply list_elem_of_fmap. exists p. split; [done|].
    by eapply list_elem_of_lookup_2. }
  apply IH. intros u Hu. apply Hrs. by right.
Qed.

Lemma addOrders_ids os w :
  NoDup (ids (orders (state w))) →
  NoDup (ids (orders (state (addOrders os w)))) ∧
  ∀ x, x ∈ ids (orders (state (addOrders os w))) ↔
       x ∈ ids (orders (state w)) ++ ids os.
Proof.
  revert w. induction os as [|o os IH]; intros w Hw; simpl.
  - split; [done|]. intros x. by rewrite app_nil_r.
  - destruct (IH (addOrder o w)) as [Hnd Hin].
    { rewrite orders_addOrder. case_decide as Hc; [done|].
      unfold ids. rewrite fmap_app. apply NoDup_app.
      split_and!; [done| |apply NoDup_singleton].
      intros x Hx ->%list_elem_of_singleton. by apply Hc. }
    split; [done|]. intros x. unfold addOrders in Hin. rewrite Hin.
    rewrite orders_addOrder. case_decide as Hc.
    + rewrite !elem_of_app, elem_of_cons. split; [tauto|].
      intros [?|[->|?]]; tauto.
    + unfold ids at 1. rewrite fmap_app. simpl.
      rewrite !elem_of_app, !elem_of_cons, elem_of_nil. tauto.
Qed.

Lemma addOrders_size os w :
  NoDup (ids (orders (state w))) →
  length (orders (state (addOrders os w))) =
    size (list_to_set (ids (orders (state w)) ++ ids os) : gset string).
Proof.
  intros Hw. destruct (addOrders_ids os w Hw) as [Hnd Hin].
  rewrite <- length_ids, <- (size_list_to_set (C:=gset string)) by done.
  f_equal. apply set_eq. intros x. by rewrite !elem_of_list_to_set.
Qed.

(** C1.  In every reachable state the cached ids are pairwise
    distinct (at most one record per id, whatever addOrder calls,
    ticks and merges happened); addOrder with a cached id leaves
    the order list as it is; and after any sequence of addOrder
    calls on the empty store the number of cached records is the
    number of distinct ids in the sequence (from a reachable state:
    the number of distinct ids among the cached and the added). *)
Theorem one_record_per_id w :
  reachable w →
  NoDup (ids (orders (state w)))
  ∧ (∀ o, id o ∈ ids (orders (state w)) →
        orders (state (addOrder o w)) = orders (state w))
  ∧ (∀ os, length (orders (state (addOrders os initial_world))) =
        size (list_to_set (ids os) : gset string))
  ∧ (∀ os, length (orders (state (addOrders os w))) =
        size (list_to_set (ids (orders (state w)) ++ ids os) : gset string)).
Proof.
  intros Hw%reachable_inv. destruct Hw as [Hnd _ _]. split_and!.
  - done.
  - intros o Ho. rewrite orders_addOrder. by rewrite decide_True.
  - intros os. rewrite addOrders_size; [done|]. simpl. constructor.
  - intros os. by apply addOrders_size.
Qed.

Lemma one_record_per_id_witness :
  reachable mixed_world ∧ NoDup (ids (orders (state mixed_world))).
Proof.
  assert (Hr : reachable mixed_world) by (exists mixed_trace; vm_compute; reflexivity).
  split; [exact Hr|]. apply (one_record_per_id mixed_world Hr).
Defined.

(** C3.  When a batch settles, a fulfilled entry whose id is cached
    (and which is the last entry of its batch for that id: under the
    endpoint's contract every entry is, see [answers_no_later]) is
    afterwards the cached record of that id, as a whole: it sits in the
    slot the id had before, and it is the only record of that id. *)
Theorem merge_overwrites_wholesale w k rs w' j u :
  reachable w →
  settle k rs w = Some w' →
  rs !! j = Some (fulfilled u) →
  id u ∈ ids (orders (state w)) →
  (∀ j' v, j < j' → rs !! j' = Some (fulfilled v) → id v ≠ id u) →
  cached (id u) w' = Some u
  ∧ (∃ n, findIndex (id u) (orders (state w)) = Some n
          ∧ orders (state w') !! n = Some u)
  ∧ (∀ o, o ∈ orders (state w') → id o = id u → o = u).
Proof.
  intros Hw%reachable_inv Hs Hj Hin Hlast.
  pose proof (inv_settle _ _ _ _ Hw Hs) as [Hnd' _ _].
  apply settle_Some in Hs as (batch & _ & _ & Ho & _).
  destruct (findIndex_is_Some _ _ Hin) as [n Hn].
  pose proof (merge_results_last _ _ _ _ _ Hj Hn Hlast) as Hslot.
  rewrite <- Ho in Hslot.
  assert (Hc : cached (id u) w' = Some u) by by eapply find_order_lookup.
  split_and!; [done|by eauto|].
  intros o Hoin Hid. by eapply find_order_unique.
Qed.

Lemma merge_overwrites_wholesale_witness :
  reachable (default initial_world (run initial_world (take 4 mixed_trace)))
  ∧ settle 0 [fulfilled A_filled; rejected "Network Error"]
      (default initial_world (run initial_world (take 4 mixed_trace))) = Some mixed_world
  ∧ cached "A" (default initial_world (run initial_world (take 4 mixed_trace))) =
      Some A_submitted
  ∧ cached "A" mixed_world = Some A_filled.
Proof.
  assert (Hr : reachable (default initial_world (run initial_world (take 4 mixed_trace))))
    by (exists (take 4 mixed_trace); vm_compute; reflexivity).
  split_and!; [exact Hr|vm_compute; reflexivity|vm_compute; reflexivity|].
  refine (proj1 (merge_overwrites_wholesale _ 0
    [fulfilled A_filled; rejected "Network Error"] mixed_world 0 A_filled
    Hr _ _ _ _)).
  - vm_compute. reflexivity.
  - reflexivity.
  - vm_compute. apply list_elem_of_In. simpl. auto.
  - intros [|[|j']] v Hlt Hv; [lia|discriminate|discriminate].
Defined.

(** C5.  When a batch settles with some entries rejected and some
    fulfilled (each carrying the id it was requested for), the outcome
    is that of the fulfilled entries alone; the record of an order
    whose fetch was rejected is what it was before; and every fulfilled
    entry is afterwards the cached record of its id. *)
Theorem failed_fetch_is_isolated w k batch rs w' :
  reachable w →
  inflight w !! k = Some batch →
  answers batch rs →
  settle k rs w = Some w' →
  orders (state w') =
    merge_results (orders (state w)) (filter (λ r, is_fulfilled r = true) rs)
  ∧ (∀ j o reason, batch !! j = Some o → rs !! j = Some (rejected reason) →
       cached (id o) w' = cached (id o) w ∧ is_Some (cached (id o) w))
  ∧ (∀ j u, rs !! j = Some (fulfilled u) → cached (id u) w' = Some u).
Proof.
  intros Hw%reachable_inv Hb Hans Hs.
  pose proof (inv_settle _ _ _ _ Hw Hs) as [Hnd' _ _].
  destruct Hw as [Hnd _ Hfl].
  apply settle_Some in Hs as (batch' & Hb' & _ & Ho & _).
  rewrite Forall_lookup in Hfl. destruct (Hfl k batch Hb) as [Hbnd Hbsub].
  split_and!.
  - by rewrite Ho, <- merge_results_fulfilled_only.
  - intros j o reason Hjo Hjr.
    assert (Hin : id o ∈ ids (orders (state w))).
    { apply Hbsub, list_elem_of_fmap. exists o. split; [done|].
      by eapply list_elem_of_lookup_2. }
    apply list_elem_of_fmap in Hin as (p & Hid & [n Hn]%list_elem_of_lookup_1).
    assert (Hn' : orders (state w') !! n = Some p).
    { rewrite Ho, <- Hn. apply merge_results_other with (id o).
      - unfold ids. rewrite list_lookup_fmap, Hn. simpl. congruence.
      - by eapply answers_rejected_untouched. }
    unfold cached. rewrite Hid.
    rewrite (find_order_lookup _ n p) by done.
    rewrite (find_order_lookup _ n p) by done. eauto.
  - intros j u Hju.
    destruct (answers_lookup _ _ _ _ Hans Hju) as (o & Hjo & Hou). simpl in Hou.
    assert (Hin : id u ∈ ids (orders (state w))).
    { rewrite Hou. apply Hbsub, list_elem_of_fmap. exists o. split; [done|].
      by eapply list_elem_of_lookup_2. }
    destruct (findIndex_is_Some _ _ Hin) as [n Hn].
    pose proof (merge_results_last _ _ _ _ _ Hju Hn
                  (answers_no_later _ _ _ _ Hbnd Hans Hju)) as Hslot.
    rewrite <- Ho in Hslot. by eapply find_order_lookup.
Qed.

Lemma failed_fetch_is_isolated_witness :
  reachable (default initial_world (run initial_world (take 4 mixed_trace)))
  ∧ answers [A_submitted; B_submitted]
      [fulfilled A_filled; rejected "Network Error"]
  ∧ settle 0 [fulfilled A_filled; rejected "Network Error"]
      (default initial_world (run initial_world (take 4 mixed_trace))) = Some mixed_world
  ∧ cached "B" mixed_world = Some B_submitted
  ∧ cached "A" mixed_world = Some A_filled.
Proof.
  assert (Hr : reachable (default initial_world (run initial_world (take 4 mixed_trace))))
    by (exists (take 4 mixed_trace); vm_compute; reflexivity).
  assert (Hans : answers [A_submitted; B_submitted]
                   [fulfilled A_filled; rejected "Network Error"])
    by (repeat constructor).
  destruct (failed_fetch_is_isolated _ 0 [A_submitted; B_submitted]
              [fulfilled A_filled; rejected "Network Error"] mixed_world
              Hr eq_refl Hans eq_refl) as (_ & Hrej & Hful).
  split_and!; [exact Hr|exact Hans|vm_compute; reflexivity| |].
  - etransitivity;
      [exact (proj1 (Hrej 1 B_submitted "Network Error" eq_refl eq_refl))|].
    vm_compute. reflexivity.
  - exact (Hful 0 A_filled eq_refl).
Defined.

(** C8.  startPolling with a handle already stored returns the world
    as it is (no timer is created); stopPolling with no handle stored
    returns the world as it is; each is idempotent; and in every
    reachable state the live timers are exactly the stored handle, so
    there is at most one. *)
Theorem polling_guards_idempotent w :
  reachable w →
  (∀ h, pollingInterval (state w) = Some h → startPolling w = w)
  ∧ (pollingInterval (state w) = None → stopPolling w = w)
  ∧ startPolling (startPolling w) = startPolling w
  ∧ stopPolling (stopPolling w) = stopPolling w
  ∧ timers w = timers_of (pollingInterval (state w))
  ∧ size (timers w) ≤ 1.
Proof.
  intros Hw%reachable_inv. destruct Hw as [_ Ht _]. split_and!.
  - intros h Hh. unfold startPolling. by rewrite Hh.
  - intros Hn. unfold stopPolling. by rewrite Hn.
  - unfold startPolling at 1. by rewrite pollingInterval_startPolling.
  - unfold stopPolling at 1. by rewrite pollingInterval_stopPolling.
  - done.
  - rewrite Ht. destruct (pollingInterval (state w)); unfold timers_of.
    + by rewrite size_singleton.
    + rewrite size_empty. lia.
Qed.

Lemma polling_guards_idempotent_witness :
  reachable mixed_world ∧ startPolling mixed_world = mixed_world ∧ size (timers mixed_world) ≤ 1.
Proof.
  assert (Hr : reachable mixed_world) by (exists mixed_trace; vm_compute; reflexivity).
  destruct (polling_guards_idempotent mixed_world Hr) as (Hs & _ & _ & _ & _ & Hsz).
  split_and!; [exact Hr|exact (Hs 1%positive eq_refl)|exact Hsz].
Defined.

(** C9.  A step either keeps the list of cached ids as it is (same
    ids, same order) or is an addOrder that appends one record with a
    new id.  A poll tick keeps the records themselves; a settling batch
    replaces the records by the merge, which keeps the ids, and changes
    nothing at all when none of its fulfilled entries carries a cached
    id. *)
Theorem only_addOrder_grows w e w' :
  step w e = Some w' →
  (ids (orders (state w')) = ids (orders (state w))
   ∨ ∃ o, e = EvAddOrder o ∧ (id o ∉ ids (orders (state w)))
          ∧ orders (state w') = orders (state w) ++ [o])
  ∧ (∀ h, e = EvTick h → orders (state w') = orders (state w))
  ∧ (∀ k rs, e = EvSettle k rs →
       orders (state w') = merge_results (orders (state w)) rs
       ∧ ids (orders (state w')) = ids (orders (state w))
       ∧ length (orders (state w')) = length (orders (state w))
       ∧ ((∀ u, fulfilled u ∈ rs → id u ∉ ids (orders (state w))) →
          orders (state w') = orders (state w))).
Proof.
  destruct e as [o| | |h|k rs]; simpl.
  - intros [= <-]. split_and!; [|done..].
    rewrite orders_addOrder. case_decide; [by left|]. right. by exists o.
  - intros [= <-]. split_and!; [|done..]. left. by rewrite orders_startPolling.
  - intros [= <-]. split_and!; [|done..]. left. by rewrite orders_stopPolling.
  - case_decide; [|done]. intros [= <-]. rewrite orders_pollOrders.
    split_and!; [by left|done..].
  - intros (batch & _ & _ & Ho & _)%settle_Some.
    split_and!; [left; by rewrite Ho, ids_merge_results|done|].
    intros ? ? [= <- <-]. rewrite Ho. split_and!.
    + done.
    + apply ids_merge_results.
    + apply length_merge_results.
    + apply merge_results_unmatched.
Qed.

Lemma only_addOrder_grows_witness :
  reachable overlap_world
  ∧ step overlap_world unmatched_response = Some unmatched_world
  ∧ (∀ u, fulfilled u ∈ [fulfilled (sample "Z" "FILLED" 10); rejected "Network Error"] →
          id u ∉ ids (orders (state overlap_world)))
  ∧ orders (state unmatched_world) = orders (state overlap_world)
  ∧ ids (orders (state unmatched_world)) = ids (orders (state overlap_world))
  ∧ length (orders (state unmatched_world)) = 2.
Proof.
  assert (Hr : reachable overlap_world)
    by (exists overlap_trace; vm_compute; reflexivity).
  assert (Hs : step overlap_world unmatched_response = Some unmatched_world)
    by (vm_compute; reflexivity).
  assert (Hun : ∀ u,
    fulfilled u ∈ [fulfilled (sample "Z" "FILLED" 10); rejected "Network Error"] →
    id u ∉ ids (orders (state overlap_world))).
  { intros u Hu%list_elem_of_In. simpl in Hu.
    destruct Hu as [Hu|[Hu|[]]]; [|discriminate Hu]. injection Hu as <-.
    vm_compute. intros H%list_elem_of_In. simpl in H.
    destruct H as [H|[H|[]]]; discriminate H. }
  destruct (only_addOrder_grows overlap_world unmatched_response unmatched_world Hs)
    as (_ & _ & Hsettle).
  destruct (Hsettle 0 _ eq_refl) as (_ & Hids & Hlen & Hdiscard).
  split_and!; [exact Hr|exact Hs|exact Hun|exact (Hdiscard Hun)|exact Hids|].
  rewrite Hlen. reflexivity.
Defined.

(** C2 as stated fails: with two orders cached, two ticks overlap and
    the second batch settles first, making [A] FILLED; the first batch
    then settles with [A] SUBMITTED, and the next tick asks for [A]
    again. *)
Lemma terminal_record_polled_again :
  reachable overlap_world
  ∧ cached "A" overlap_world = Some A_filled
  ∧ is_terminal (status A_filled) = true
  ∧ run overlap_world [late_response; EvTick 1] = Some late_tick_world
  ∧ ¬ (∀ extra, sent late_tick_world = sent overlap_world ++ extra → "A" ∉ extra).
Proof.
  split_and!.
  - exists overlap_trace. vm_compute. reflexivity.
  - vm_compute. reflexivity.
  - reflexivity.
  - vm_compute. reflexivity.
  - intros H. apply (H ["A"; "B"]); [vm_compute; reflexivity|]. by left.
Qed.

(** C2, amended.  A tick sends exactly the ids of the non-terminal
    cached orders, each once: a cached record that is terminal is not
    asked for, one that is not terminal is.  From a state where the
    record of an id is terminal, along any run in which no settling
    batch brings a non-terminal status for that id, the record stays
    terminal and no request for the id is sent. *)
Theorem tick_requests_active_orders w i o :
  reachable w →
  cached i w = Some o →
  sent (pollOrders w) = sent w ++ ids (activeOrders (orders (state w)))
  ∧ NoDup (ids (activeOrders (orders (state w))))
  ∧ (is_terminal (status o) = true → i ∉ ids (activeOrders (orders (state w))))
  ∧ (is_terminal (status o) = false → i ∈ ids (activeOrders (orders (state w))))
  ∧ (is_terminal (status o) = true →
     ∀ es w', run w es = Some w' →
       forallb (λ e, negb (reopens i e)) es = true →
       (∃ o', cached i w' = Some o' ∧ is_terminal (status o') = true)
       ∧ (i ∉ ids (activeOrders (orders (state w'))))
       ∧ ∃ extra, sent w' = sent w ++ extra ∧ i ∉ extra).
Proof.
  intros Hw%reachable_inv Hc. pose proof Hw as [Hnd _ _]. split_and!.
  - apply sent_pollOrders.
  - by apply NoDup_ids_activeOrders.
  - intros Ht. by eapply terminal_not_active.
  - intros Ht. by eapply non_terminal_active.
  - intros Ht es w' Hrun Hall.
    destruct (run_keeps_terminal _ _ _ _ _ Hw Hrun Hall Hc Ht)
      as [(o' & Hc' & Ht') Hsent].
    split_and!; [by eauto| |done].
    eapply terminal_not_active; [|exact Hc'|exact Ht'].
    by destruct (run_preserves inv inv_step es w w' Hw Hrun).
Qed.

Lemma tick_requests_active_orders_witness :
  reachable overlap_world
  ∧ cached "A" overlap_world = Some A_filled
  ∧ "A" ∉ ids (activeOrders (orders (state overlap_world))).
Proof.
  assert (Hr : reachable overlap_world)
    by (exists overlap_trace; vm_compute; reflexivity).
  assert (Hc : cached "A" overlap_world = Some A_filled)
    by (vm_compute; reflexivity).
  split_and!; [exact Hr|exact Hc|].
  destruct (tick_requests_active_orders overlap_world "A" A_filled Hr Hc)
    as (_ & _ & H & _).
  apply H. reflexivity.
Defined.

(** C4 as stated fails: a single order is polled by two overlapping
    ticks; the second batch reports it FILLED, the next tick finds
    nothing active and stops the timer; the first batch then settles
    with SUBMITTED; the orders table mounts and calls startPolling, and
    the new timer's tick sends a request although addOrder was not
    called. *)
Lemma polling_resumes_without_addOrder :
  reachable drained_world
  ∧ activeOrders (orders (state drained_world)) = []
  ∧ step drained_world (EvTick 1) = Some idle_world
  ∧ timers idle_world = ∅
  ∧ forallb (λ e, negb (is_addOrder e)) remount_trace = true
  ∧ run idle_world remount_trace = Some remount_world
  ∧ sent remount_world ≠ sent idle_world.
Proof.
  split_and!.
  - exists drained_trace. vm_compute. reflexivity.
  - vm_compute. reflexivity.
  - vm_compute. reflexivity.
  - vm_compute. reflexivity.
  - reflexivity.
  - vm_compute. reflexivity.
  - vm_compute. discriminate.
Qed.

(** C4, amended.  A tick that finds no non-terminal cached order sends
    nothing and leaves no handle stored and no timer live; from then
    on, along any run without an addOrder or startPolling call, no
    timer is live and no request is sent. *)
Theorem idle_until_started_again w h w1 es w2 :
  reachable w →
  step w (EvTick h) = Some w1 →
  activeOrders (orders (state w)) = [] →
  forallb (λ e, negb (starts e)) es = true →
  run w1 es = Some w2 →
  pollingInterval (state w1) = None ∧ timers w1 = ∅
  ∧ sent w1 = sent w ∧ inflight w1 = inflight w
  ∧ pollingInterval (state w2) = None ∧ timers w2 = ∅ ∧ sent w2 = sent w1.
Proof.
  intros Hw%reachable_inv Htick Hact Hall Hrun.
  pose proof (inv_step _ _ _ Hw Htick) as [_ Ht1 _].
  simpl in Htick. case_decide; [|done]. injection Htick as <-.
  assert (Hpoll : pollOrders w = stopPolling w).
  { unfold pollOrders. rewrite Hact. by rewrite decide_True. }
  rewrite Hpoll in *.
  assert (Hp1 : pollingInterval (state (stopPolling w)) = None)
    by apply pollingInterval_stopPolling.
  rewrite Hp1 in Ht1. simpl in Ht1.
  destruct (run_stays_idle _ _ _ Hp1 Ht1 Hall Hrun) as (? & ? & ?).
  split_and!; try done.
  - apply sent_stopPolling.
  - apply inflight_stopPolling.
Qed.

Lemma idle_until_started_again_witness :
  reachable drained_world
  ∧ step drained_world (EvTick 1) = Some idle_world
  ∧ run idle_world [EvSettle 0 [fulfilled A_submitted]; EvStopPolling] =
      Some (default initial_world
              (run idle_world [EvSettle 0 [fulfilled A_submitted]; EvStopPolling]))
  ∧ sent (default initial_world
            (run idle_world [EvSettle 0 [fulfilled A_submitted]; EvStopPolling])) =
      sent idle_world.
Proof.
  assert (Hr : reachable drained_world)
    by (exists drained_trace; vm_compute; reflexivity).
  assert (Ht : step drained_world (EvTick 1) = Some idle_world)
    by (vm_compute; reflexivity).
  assert (Hrun : run idle_world [EvSettle 0 [fulfilled A_submitted]; EvStopPolling] =
      Some (default initial_world
              (run idle_world [EvSettle 0 [fulfilled A_submitted]; EvStopPolling])))
    by (vm_compute; reflexivity).
  split_and!; [exact Hr|exact Ht|exact Hrun|].
  apply (idle_until_started_again drained_world 1 idle_world
           [EvSettle 0 [fulfilled A_submitted]; EvStopPolling] _ Hr Ht).
  - vm_compute. reflexivity.
  - reflexivity.
  - exact Hrun.
Defined.

(** C6 as stated fails: in the overlap above [A] is FILLED when the
    batch of the first tick settles, and that step puts it back to
    SUBMITTED. *)
Lemma terminal_record_reverts :
  reachable overlap_world
  ∧ cached "A" overlap_world = Some A_filled
  ∧ is_terminal (status A_filled) = true
  ∧ step overlap_world late_response = Some late_world
  ∧ ¬ (∀ o', cached "A" late_world = Some o' → is_terminal (status o') = true).
Proof.
  split_and!.
  - exists overlap_trace. vm_compute. reflexivity.
  - vm_compute. reflexivity.
  - reflexivity.
  - vm_compute. reflexivity.
  - intros H. specialize (H A_submitted). vm_compute in H.
    specialize (H eq_refl). discriminate.
Qed.

(** C6, amended.  A step keeps every cached record in its slot under
    its id, and keeps the record itself unless the step is a settling
    batch holding a fulfilled entry of that id, which then is the new
    record.  So a terminal record stays terminal across every step
    that brings no non-terminal response for its id. *)
Theorem terminal_until_reopened w e w' n o :
  reachable w →
  step w e = Some w' →
  orders (state w) !! n = Some o →
  ∃ o', orders (state w') !! n = Some o'
        ∧ cached (id o) w' = Some o'
        ∧ (o' = o ∨ ∃ k rs, e = EvSettle k rs ∧ fulfilled o' ∈ rs)
        ∧ (is_terminal (status o) = true → reopens (id o) e = false →
           is_terminal (status o') = true).
Proof.
  intros Hw%reachable_inv He Hn.
  pose proof (inv_step _ _ _ Hw He) as [Hnd' _ _].
  destruct (step_slot _ _ _ _ _ He Hn) as (o' & Hn' & Hid & Hsrc).
  exists o'. split_and!; [done| |done|].
  - unfold cached. rewrite <- Hid. by eapply find_order_lookup.
  - intros Ht Hre. destruct Hsrc as [->|(k & rs & -> & Hin)]; [done|].
    simpl in Hre. apply reopens_one_false with (id o); [|done].
    by eapply (existsb_false_elem _ rs).
Qed.

Lemma terminal_until_reopened_witness :
  reachable overlap_world
  ∧ step overlap_world (EvTick 1) = Some (pollOrders overlap_world)
  ∧ orders (state overlap_world) !! 0 = Some A_filled
  ∧ cached "A" (pollOrders overlap_world) = Some A_filled.
Proof.
  assert (Hr : reachable overlap_world)
    by (exists overlap_trace; vm_compute; reflexivity).
  assert (He : step overlap_world (EvTick 1) = Some (pollOrders overlap_world))
    by (vm_compute; reflexivity).
  assert (Hn : orders (state overlap_world) !! 0 = Some A_filled)
    by (vm_compute; reflexivity).
  split_and!; [exact Hr|exact He|exact Hn|].
  destruct (terminal_until_reopened overlap_world (EvTick 1) _ 0 A_filled Hr He Hn)
    as (o' & _ & Hc & [->|(k & rs & Hk & _)] & _).
  - exact Hc.
  - discriminate Hk.
Defined.

(** C7 as stated fails: a request for [A] is out when stopPolling is
    called; its response arrives afterwards and is written into the
    cache. *)
Lemma response_after_stop_is_applied :
  run initial_world stopped_trace = Some stopped_world
  ∧ last stopped_trace = Some EvStopPolling
  ∧ timers stopped_world = ∅
  ∧ inflight stopped_world = [[A_submitted]]
  ∧ step stopped_world (EvSettle 0 [fulfilled A_filled]) = Some after_stop_world
  ∧ orders (state after_stop_world) ≠ orders (state stopped_world).
Proof.
  split_and!; try (vm_compute; reflexivity). vm_compute. discriminate.
Qed.

(** C7, amended.  stopPolling clears the stored handle and leaves the
    cached records and the suspended pollOrders calls as they are; a
    batch that settles after the stop is merged into the cache exactly
    as it is merged without the stop. *)
Theorem stop_does_not_cancel_inflight w k rs :
  pollingInterval (state (stopPolling w)) = None
  ∧ orders (state (stopPolling w)) = orders (state w)
  ∧ inflight (stopPolling w) = inflight w
  ∧ settle k rs (stopPolling w) = stopPolling <$> settle k rs w
  ∧ (∀ w', settle k rs (stopPolling w) = Some w' →
       orders (state w') = merge_results (orders (state w)) rs).
Proof.
  split_and!.
  - apply pollingInterval_stopPolling.
  - apply orders_stopPolling.
  - apply inflight_stopPolling.
  - unfold settle. rewrite inflight_stopPolling, orders_stopPolling.
    destruct (inflight w !! k) as [batch|]; [|done].
    case_decide; [|done]. simpl. f_equal.
    unfold stopPolling. simpl. by destruct (pollingInterval (state w)).
  - intros w' (batch & _ & _ & Ho & _)%settle_Some.
    by rewrite Ho, orders_stopPolling.
Qed.

(** C10 as stated fails: with the non-terminal [B] cached, addOrder of
    the terminal [A] leaves [B] active; the tick sends a request for
    [B] and the timer keeps running. *)
Lemma terminal_add_with_active_order :
  reachable busy_world
  ∧ is_terminal (status A_filled) = true
  ∧ ¬ (activeOrders (orders (state (addOrder A_filled busy_world))) = []
       ∧ sent (pollOrders (addOrder A_filled busy_world)) =
           sent (addOrder A_filled busy_world)
       ∧ pollingInterval (state (pollOrders (addOrder A_filled busy_world))) = None).
Proof.
  split_and!.
  - exists [EvAddOrder B_submitted]. reflexivity.
  - reflexivity.
  - intros (H & _). vm_compute in H. discriminate.
Qed.

(** C10, amended.  After every addOrder (cached id or not, terminal
    record or not) a handle is stored: the one stored before, or a
    fresh timer if none was.  When the record is terminal and no
    cached order is active, the next tick finds nothing active, sends
    nothing, suspends nothing, and leaves no handle and no timer. *)
Theorem addOrder_always_starts_polling w o :
  reachable w →
  pollingInterval (state (addOrder o w)) =
    Some (default (next_handle w) (pollingInterval (state w)))
  ∧ timers (addOrder o w) = {[default (next_handle w) (pollingInterval (state w))]}
  ∧ (is_terminal (status o) = true →
     activeOrders (orders (state w)) = [] →
     activeOrders (orders (state (addOrder o w))) = []
     ∧ sent (pollOrders (addOrder o w)) = sent w
     ∧ inflight (pollOrders (addOrder o w)) = inflight w
     ∧ pollingInterval (state (pollOrders (addOrder o w))) = None
     ∧ timers (pollOrders (addOrder o w)) = ∅).
Proof.
  intros Hw%reachable_inv.
  assert (Hp : pollingInterval (state (addOrder o w)) =
    Some (default (next_handle w) (pollingInterval (state w)))).
  { unfold addOrder. rewrite pollingInterval_startPolling. simpl.
    by rewrite pollingInterval_push_order. }
  split_and!.
  - done.
  - destruct (inv_addOrder o w Hw) as [_ Ht _]. by rewrite Ht, Hp.
  - intros Hterm Hact.
    assert (Hact' : activeOrders (orders (state (addOrder o w))) = []).
    { rewrite orders_addOrder. case_decide; [done|].
      unfold activeOrders in *. rewrite filter_app, Hact. simpl.
      rewrite filter_cons, decide_False; [done|]. by rewrite Hterm. }
    assert (Hpoll : pollOrders (addOrder o w) = stopPolling (addOrder o w)).
    { unfold pollOrders. rewrite Hact'. by rewrite decide_True. }
    pose proof (inv_stopPolling _ (inv_addOrder o w Hw)) as [_ Ht _].
    rewrite Hpoll. rewrite pollingInterval_stopPolling in Ht.
    split_and!; [done| | |apply pollingInterval_stopPolling|done].
    + by rewrite sent_stopPolling, sent_addOrder.
    + by rewrite inflight_stopPolling, inflight_addOrder.
Qed.

Lemma addOrder_always_starts_polling_witness :
  reachable initial_world
  ∧ pollingInterval (state (addOrder A_filled initial_world)) = Some 1%positive
  ∧ timers (pollOrders (addOrder A_filled initial_world)) = ∅.
Proof.
  assert (Hr : reachable initial_world) by (exists []; reflexivity).
  destruct (addOrder_always_starts_polling initial_world A_filled Hr)
    as (Hp & _ & Hterm).
  split_and!; [exact Hr|exact Hp|].
  apply Hterm; reflexivity.
Defined.

End Claims.

(** ** More about the store: closed forms and what it never does *)

Section Store.
Implicit Types (w : world) (o u : order) (e : event) (os : list order)
  (rs : list settled) (i : string).

Lemma trackedOrderIds_step w e w' :
  step w e = Some w' → trackedOrderIds (state w') = trackedOrderIds (state w).
Proof.
  destruct e as [o| | |h|k rs]; simpl.
  - intros [= <-]. unfold addOrder, startPolling, push_order. simpl.
    case_bool_decide; simpl; by destruct (pollingInterval (state w)).
  - intros [= <-]. unfold startPolling. by destruct (pollingInterval (state w)).
  - intros [= <-]. unfold stopPolling. by destruct (pollingInterval (state w)).
  - case_decide; [|done]. intros [= <-]. unfold pollOrders, stopPolling.
    case_decide; [|done]. by destruct (pollingInterval (state w)).
  - unfold settle. destruct (inflight w !! k); [|done].
    case_decide; [|done]. by intros [= <-].
Qed.

(** X1.  No operation of the store ever writes [trackedOrderIds]: in
    every reachable state it is the empty set it was created as. *)
Theorem trackedOrderIds_never_used w :
  reachable w → trackedOrderIds (state w) = ∅.
Proof.
  intros [es Hes].
  refine (run_preserves (λ w, trackedOrderIds (state w) = ∅) _
            es initial_world w eq_refl Hes).
  intros w1 e w2 H1 He. by rewrite (trackedOrderIds_step _ _ _ He).
Qed.

Lemma trackedOrderIds_never_used_witness :
  reachable mixed_world ∧ trackedOrderIds (state mixed_world) = ∅.
Proof.
  assert (Hr : reachable mixed_world)
    by (exists mixed_trace; vm_compute; reflexivity).
  split; [exact Hr|]. apply (trackedOrderIds_never_used mixed_world Hr).
Defined.

(** X2.  A sequence of addOrder calls appends, in call order, exactly
    the records whose id is neither cached nor carried by an earlier
    call of the sequence: the first record of an id stays, a later one
    with the same id is dropped, whatever it holds. *)
Theorem addOrders_keep_first os w :
  orders (state (addOrders os w)) =
    orders (state w) ++ keep_first (ids (orders (state w))) os.
Proof.
  unfold addOrders. revert w. induction os as [|o os IH]; intros w; simpl.
  - by rewrite app_nil_r.
  - rewrite IH, orders_addOrder.
    destruct (decide (id o ∈ ids (orders (state w)))) as [Hin|Hin]; [done|].
    unfold ids at 1. rewrite fmap_app. simpl. by rewrite <- app_assoc.
Qed.

Lemma apply_result_map os r :
  NoDup (ids os) →
  apply_result os r =
    (λ o, match r with
          | fulfilled u => if decide (id u = id o) then u else o
          | rejected _ => o
          end) <$> os.
Proof.
  intros Hnd. destruct r as [u|reason]; simpl; [|by rewrite list_fmap_id].
  apply list_eq. intros n. rewrite list_lookup_fmap.
  destruct (findIndex (id u) os) as [m|] eqn:E.
  - pose proof E as (p & Hp & Hid & _)%findIndex_Some.
    destruct (decide (n = m)) as [->|Hne].
    + rewrite list_lookup_insert_eq by by eapply lookup_lt_Some.
      rewrite Hp. simpl. by rewrite decide_True.
    + rewrite list_lookup_insert_ne by done.
      destruct (os !! n) as [q|] eqn:Hq; [|done]. simpl.
      rewrite decide_False; [done|]. intros Hu. apply Hne.
      pose proof (findIndex_NoDup os n q Hnd Hq) as Hf.
      rewrite <- Hu, E in Hf. by injection Hf.
  - apply findIndex_None in E.
    destruct (os !! n) as [q|] eqn:Hq; [|done]. simpl.
    rewrite decide_False; [done|]. intros Hu. apply E. rewrite Hu.
    apply list_elem_of_fmap. exists q. split; [done|].
    by eapply list_elem_of_lookup_2.
Qed.

Lemma last_fulfilled_id i rs u : last_fulfilled i rs = Some u → id u = i.
Proof.
  induction rs as [|r rs IH]; [done|]. simpl.
  destruct (last_fulfilled i rs) as [v|].
  - intros [= ->]. by apply IH.
  - destruct r as [v|reason]; [|done]. case_decide; [|done]. by intros [= <-].
Qed.

Lemma last_fulfilled_elem i rs u :
  last_fulfilled i rs = Some u → fulfilled u ∈ rs.
Proof.
  induction rs as [|r rs IH]; [done|]. simpl.
  destruct (last_fulfilled i rs) as [v|].
  - intros [= ->]. right. by apply IH.
  - destruct r as [v|reason]; [|done]. case_decide; [|done].
    intros [= <-]. by left.
Qed.

Lemma last_fulfilled_None i rs :
  last_fulfilled i rs = None ↔ i ∉ response_ids rs.
Proof.
  induction rs as [|r rs IH]; simpl.
  - split; [intros _; apply not_elem_of_nil|done].
  - unfold response_ids in *. simpl.
    destruct (last_fulfilled i rs) as [v|] eqn:E.
    + split; [done|]. intros Hn. exfalso.
      destruct IH as [_ IH]. assert (Some v = None); [|done].
      apply IH. intros Hin. apply Hn.
      destruct r as [x|reason]; simpl; [by right|done].
    + destruct IH as [IH _]. specialize (IH eq_refl).
      destruct r as [x|reason]; simpl; [|done].
      case_decide as Hx; split; try done.
      * intros Hn. exfalso. apply Hn. rewrite Hx. by left.
      * intros _ [->|Hin]%elem_of_cons; [done|by apply IH].
Qed.

Lemma merge_results_closed_form os rs :
  NoDup (ids os) →
  merge_results os rs = (λ o, default o (last_fulfilled (id o) rs)) <$> os.
Proof.
  revert os. induction rs as [|r rs IH]; intros os Hnd.
  - simpl. by rewrite list_fmap_id.
  - simpl. unfold merge_results in IH. rewrite IH by by rewrite ids_apply_result.
    rewrite apply_result_map by done. rewrite <- list_fmap_compose.
    apply list_fmap_ext. intros n o Ho. simpl.
    destruct r as [u|reason]; [|by destruct (last_fulfilled (id o) rs)].
    destruct (decide (id u = id o)) as [Hu|Hu].
    + rewrite Hu. by destruct (last_fulfilled (id o) rs).
    + by destruct (last_fulfilled (id o) rs).
Qed.

(** X3.  With distinct cached ids, merging a batch puts in every slot
    the last fulfilled entry of the batch that carries the slot's id,
    and leaves the slot as it is when no entry does. *)
Theorem merge_results_last_wins os rs :
  NoDup (ids os) →
  merge_results os rs = (λ o, default o (last_fulfilled (id o) rs)) <$> os.
Proof. apply merge_results_closed_form. Qed.

Lemma merge_results_last_wins_witness :
  NoDup (ids [A_submitted; B_submitted])
  ∧ merge_results [A_submitted; B_submitted]
      [fulfilled (sample "A" "ACCEPTED" 0); rejected "Network Error";
       fulfilled A_filled] = [A_filled; B_submitted].
Proof.
  assert (Hnd : NoDup (ids [A_submitted; B_submitted])).
  { apply (bool_decide_unpack _). vm_compute. exact I. }
  split; [exact Hnd|].
  rewrite (merge_results_last_wins [A_submitted; B_submitted] _ Hnd).
  reflexivity.
Defined.

Lemma last_fulfilled_unique i rs u :
  NoDup (response_ids rs) → fulfilled u ∈ rs → id u = i →
  last_fulfilled i rs = Some u.
Proof.
  induction rs as [|r rs IH]; intros Hnd Hin Hid; [by apply elem_of_nil in Hin|].
  unfold response_ids in *. simpl in *.
  apply elem_of_cons in Hin as [<-|Hin].
  - simpl in Hnd. apply NoDup_cons in Hnd as [Hnotin _].
    rewrite Hid in Hnotin. apply last_fulfilled_None in Hnotin.
    rewrite Hnotin. by rewrite decide_True.
  - rewrite IH; [done| |done..].
    destruct r as [x|reason]; simpl in Hnd; [|done].
    by apply NoDup_cons in Hnd as [_ ?].
Qed.

Lemma last_fulfilled_permutation i rs rs' :
  NoDup (response_ids rs) → rs ≡ₚ rs' →
  last_fulfilled i rs = last_fulfilled i rs'.
Proof.
  intros Hnd Hp.
  assert (Hnd' : NoDup (response_ids rs')).
  { unfold response_ids in *. by rewrite <- Hp. }
  destruct (last_fulfilled i rs) as [u|] eqn:E.
  - symmetry. apply last_fulfilled_unique; [done| |by eapply last_fulfilled_id].
    rewrite <- Hp. by eapply last_fulfilled_elem.
  - symmetry. apply last_fulfilled_None. apply last_fulfilled_None in E.
    unfold response_ids in *. by rewrite <- Hp.
Qed.

(** X4.  When the fulfilled entries of a batch carry pairwise distinct
    ids (as they do when each response carries the id it was requested
    for), the merge does not depend on the order of the entries. *)
Theorem merge_results_permutation os rs rs' :
  NoDup (ids os) → NoDup (response_ids rs) → rs ≡ₚ rs' →
  merge_results os rs = merge_results os rs'.
Proof.
  intros Hnd Hrs Hp. rewrite !merge_results_closed_form by done.
  apply list_fmap_ext. intros n o _.
  by rewrite (last_fulfilled_permutation _ rs rs').
Qed.

Lemma merge_results_permutation_witness :
  NoDup (ids [A_submitted; B_submitted])
  ∧ [fulfilled A_filled; fulfilled B_filled] ≡ₚ [fulfilled B_filled; fulfilled A_filled]
  ∧ merge_results [A_submitted; B_submitted] [fulfilled A_filled; fulfilled B_filled] =
    merge_results [A_submitted; B_submitted] [fulfilled B_filled; fulfilled A_filled].
Proof.
  assert (Hnd : NoDup (ids [A_submitted; B_submitted])).
  { apply (bool_decide_unpack _). vm_compute. exact I. }
  assert (Hrs : NoDup (response_ids [fulfilled A_filled; fulfilled B_filled])).
  { apply (bool_decide_unpack _). vm_compute. exact I. }
  assert (Hp : [fulfilled A_filled; fulfilled B_filled] ≡ₚ
               [fulfilled B_filled; fulfilled A_filled]) by apply perm_swap.
  split_and!; [exact Hnd|exact Hp|].
  apply (merge_results_permutation _ _ _ Hnd Hrs Hp).
Defined.

Lemma delete_delete_lt {A} (l : list A) (i j : nat) :
  i < j → delete (j - 1) (delete i l) = delete i (delete j l).
Proof.
  revert i j. induction l as [|x l IH]; intros i j Hij; [by destruct i, j|].
  destruct j as [|j]; [lia|]. destruct i as [|i]; simpl.
  - by rewrite Nat.sub_0_r.
  - destruct j as [|j]; [lia|]. simpl. f_equal.
    rewrite <- (IH i (S j)) by lia. simpl. by rewrite Nat.sub_0_r.
Qed.

Lemma merge_results_disjoint_commute os rs1 rs2 :
  NoDup (ids os) →
  (∀ i, i ∈ response_ids rs1 → i ∉ response_ids rs2) →
  merge_results (merge_results os rs1) rs2 =
  merge_results (merge_results os rs2) rs1.
Proof.
  intros Hnd Hdis.
  rewrite (merge_results_closed_form (merge_results os rs1))
    by by rewrite ids_merge_results.
  rewrite (merge_results_closed_form (merge_results os rs2))
    by by rewrite ids_merge_results.
  rewrite !merge_results_closed_form by done.
  rewrite <- !list_fmap_compose. apply list_fmap_ext. intros n o _. simpl.
  destruct (last_fulfilled (id o) rs1) as [u|] eqn:E1;
    destruct (last_fulfilled (id o) rs2) as [v|] eqn:E2; simpl.
  - exfalso. apply (Hdis (id o)).
    + apply dec_stable. intros ?%last_fulfilled_None. congruence.
    + apply dec_stable. intros ?%last_fulfilled_None. congruence.
  - rewrite (last_fulfilled_id _ _ _ E1), E2, E1. done.
  - rewrite (last_fulfilled_id _ _ _ E2), E1, E2. done.
  - by rewrite E1, E2.
Qed.

(** X5.  Two suspended polls whose responses carry no common id can
    resume in either order: the cache, the calls left in flight and
    everything else come out the same (and either order fails when the
    other does). *)
Theorem disjoint_batches_commute w k1 k2 rs1 rs2 :
  reachable w → k1 < k2 →
  (∀ i, i ∈ response_ids rs1 → i ∉ response_ids rs2) →
  settle k1 rs1 w ≫= settle (k2 - 1) rs2 = settle k2 rs2 w ≫= settle k1 rs1.
Proof.
  intros Hw%reachable_inv Hlt Hdis. destruct Hw as [Hnd _ _].
  destruct k2 as [|k2]; [lia|]. replace (S k2 - 1) with k2 by lia.
  assert (Hge : ∀ l : list (list order), delete k1 l !! k2 = l !! S k2)
    by (intros l; apply list_lookup_delete_ge; lia).
  assert (Hl : ∀ l : list (list order), delete (S k2) l !! k1 = l !! k1)
    by (intros l; apply list_lookup_delete_lt; lia).
  unfold settle.
  destruct (inflight w !! k1) as [b1|] eqn:E1;
    destruct (inflight w !! S k2) as [b2|] eqn:E2; simpl;
    repeat case_decide; simpl; rewrite ?Hge, ?Hl, ?E1, ?E2; simpl;
    rewrite ?decide_True by done; rewrite ?decide_False by done; try done.
  f_equal. unfold set_orders. simpl.
  rewrite <- (delete_delete_lt (inflight w) k1 (S k2)) by done.
  replace (S k2 - 1) with k2 by lia.
  by rewrite merge_results_disjoint_commute.
Qed.

Lemma disjoint_batches_commute_witness :
  reachable two_batches_world
  ∧ 0 < 1
  ∧ (settle 0 [fulfilled A_filled] two_batches_world
     ≫= settle (1 - 1) [rejected "Network Error"; fulfilled B_filled])
    = (settle 1 [rejected "Network Error"; fulfilled B_filled] two_batches_world
     ≫= settle 0 [fulfilled A_filled]).
Proof.
  assert (Hr : reachable two_batches_world)
    by (exists two_batches_trace; vm_compute; reflexivity).
  split_and!; [exact Hr|lia|].
  apply (disjoint_batches_commute _ 0 1 [fulfilled A_filled]
           [rejected "Network Error"; fulfilled B_filled] Hr); [lia|].
  intros i Hi Hi'. vm_compute in Hi, Hi'.
  apply list_elem_of_singleton in Hi, Hi'. congruence.
Defined.

Lemma ids_step w e w' :
  step w e = Some w' →
  ids (orders (state w')) = ids (orders (state w)) ∨
  ∃ o, ids (orders (state w')) = ids (orders (state w)) ++ [id o].
Proof.
  destruct e as [o| | |h|k rs]; simpl.
  - intros [= <-]. rewrite orders_addOrder. case_decide; [by left|].
    right. exists o. unfold ids. by rewrite fmap_app.
  - intros [= <-]. left. by rewrite orders_startPolling.
  - intros [= <-]. left. by rewrite orders_stopPolling.
  - case_decide; [|done]. intros [= <-]. left. by rewrite orders_pollOrders.
  - intros (batch & _ & _ & Ho & _)%settle_Some. left.
    by rewrite Ho, ids_merge_results.
Qed.

(** X6.  Along every run the list of cached ids only grows at its end:
    no event removes a record, moves one, or changes the id in a slot. *)
Theorem cached_ids_only_grow es w w' :
  run w es = Some w' →
  ids (orders (state w)) `prefix_of` ids (orders (state w')).
Proof.
  revert w. induction es as [|e es IH]; intros w; simpl.
  - by intros [= <-].
  - destruct (step w e) as [w1|] eqn:He; [|done]. intros Hrun.
    etransitivity; [|by apply IH].
    destruct (ids_step _ _ _ He) as [->|[o ->]]; [done|].
    by apply prefix_app_r.
Qed.

Lemma cached_ids_only_grow_witness :
  run two_batches_world [EvSettle 1 [fulfilled B_filled; fulfilled A_filled];
                         EvAddOrder (sample "C" "SUBMITTED" 0)] =
    Some (default initial_world
            (run two_batches_world [EvSettle 1 [fulfilled B_filled; fulfilled A_filled];
                                    EvAddOrder (sample "C" "SUBMITTED" 0)]))
  ∧ ["A"; "B"] `prefix_of`
      ids (orders (state (default initial_world
            (run two_batches_world [EvSettle 1 [fulfilled B_filled; fulfilled A_filled];
                                    EvAddOrder (sample "C" "SUBMITTED" 0)])))).
Proof.
  assert (Hrun : run two_batches_world
                   [EvSettle 1 [fulfilled B_filled; fulfilled A_filled];
                    EvAddOrder (sample "C" "SUBMITTED" 0)] =
    Some (default initial_world
            (run two_batches_world [EvSettle 1 [fulfilled B_filled; fulfilled A_filled];
                                    EvAddOrder (sample "C" "SUBMITTED" 0)])))
    by (vm_compute; reflexivity).
  split; [exact Hrun|].
  apply (cached_ids_only_grow _ _ _ Hrun).
Defined.

(** X7.  In every reachable state every request ever sent was for a
    cached id, and every suspended poll holds at least one order, only
    cached ids, only orders that were non-terminal when it was started,
    and only ids whose request is in the log. *)
Theorem requests_only_for_cached w :
  reachable w →
  (∀ i, i ∈ sent w → i ∈ ids (orders (state w)))
  ∧ Forall (λ batch, batch ≠ []
                     ∧ ids batch ⊆ ids (orders (state w))
                     ∧ Forall (λ o, is_terminal (status o) = false) batch
                     ∧ ids batch ⊆ sent w)
           (inflight w).
Proof.
  intros [es Hes].
  refine (run_preserves (λ w,
    (∀ i, i ∈ sent w → i ∈ ids (orders (state w)))
    ∧ Forall (λ batch, batch ≠ []
                     ∧ ids batch ⊆ ids (orders (state w))
                     ∧ Forall (λ o, is_terminal (status o) = false) batch
                     ∧ ids batch ⊆ sent w) (inflight w)) _
    es initial_world w _ Hes).
  - clear. intros w e w' [Hsent Hfl] He.
    assert (Hsub : ids (orders (state w)) ⊆ ids (orders (state w'))).
    { destruct (ids_step _ _ _ He) as [->|[o ->]]; [done|].
      intros x Hx. apply elem_of_app. by left. }
    destruct e as [o| | |h|k rs]; simpl in He.
    + injection He as <-. rewrite sent_addOrder, inflight_addOrder.
      split; [by auto|]. eapply Forall_impl; [exact Hfl|].
      intros b (? & Hb & ? & ?). split_and!; [done| |done..].
      intros x Hx. by apply Hsub, Hb.
    + injection He as <-. rewrite sent_startPolling, inflight_startPolling,
        orders_startPolling. done.
    + injection He as <-. rewrite sent_stopPolling, inflight_stopPolling,
        orders_stopPolling. done.
    + case_decide; [|done]. injection He as <-.
      rewrite sent_pollOrders, orders_pollOrders. split.
      * intros i [Hi|Hi]%elem_of_app; [by auto|].
        by apply ids_activeOrders_subseteq.
      * unfold pollOrders. case_decide as Hact.
        -- rewrite inflight_stopPolling. eapply Forall_impl; [exact Hfl|].
           intros b (? & ? & ? & Hb). split_and!; [done..|].
           intros x Hx. apply elem_of_app. left. by apply Hb.
        -- simpl. apply Forall_app. split.
           ++ eapply Forall_impl; [exact Hfl|].
              intros b (? & ? & ? & Hb). split_and!; [done..|].
              intros x Hx. apply elem_of_app. left. by apply Hb.
           ++ apply Forall_singleton. split_and!.
              ** intros Hnil. apply Hact. by rewrite Hnil.
              ** apply ids_activeOrders_subseteq.
              ** apply Forall_forall. intros o Ho. unfold activeOrders in Ho.
                 by apply list_elem_of_filter in Ho as [? _].
              ** intros x Hx. apply elem_of_app. by right.
    + apply settle_Some in He as (batch & _ & _ & Ho & _ & _ & Hs & Hi).
      rewrite Hs, Hi, Ho, ids_merge_results. split; [done|].
      by apply Forall_delete.
  - split; [by intros i ?%elem_of_nil|constructor].
Qed.

Lemma requests_only_for_cached_witness :
  reachable two_batches_world
  ∧ (∀ i, i ∈ sent two_batches_world → i ∈ ids (orders (state two_batches_world))).
Proof.
  assert (Hr : reachable two_batches_world)
    by (exists two_batches_trace; vm_compute; reflexivity).
  split; [exact Hr|]. apply (requests_only_for_cached _ Hr).
Defined.

Lemma set_orders_same (s : store) : set_orders (orders s) s = s.
Proof. by destruct s. Qed.

Lemma merge_results_all_rejected os a reason :
  merge_results os (replicate a (rejected reason)) = os.
Proof.
  apply merge_results_unmatched. intros u Hu.
  by apply elem_of_replicate in Hu as [? _].
Qed.

Lemma tick_enabled w h :
  inv w → pollingInterval (state w) = Some h →
  step w (EvTick h) = Some (pollOrders w).
Proof.
  intros [_ Ht _] Hh. simpl. rewrite decide_True; [done|].
  rewrite Ht, Hh. simpl. by apply elem_of_singleton.
Qed.

Lemma failing_round w h :
  inv w → pollingInterval (state w) = Some h →
  activeOrders (orders (state w)) ≠ [] →
  run w [EvTick h;
         EvSettle (length (inflight w))
           (replicate (length (activeOrders (orders (state w))))
                      (rejected "Network Error"))] =
  Some {| state := state w; timers := timers w; next_handle := next_handle w;
          inflight := inflight w;
          sent := sent w ++ ids (activeOrders (orders (state w))) |}.
Proof.
  intros Hw Hh Hact. unfold run. rewrite (tick_enabled w h) by done.
  unfold pollOrders. rewrite decide_False
    by (intros Hl; by apply nil_length_inv in Hl).
  unfold step, settle. simpl. rewrite list_lookup_middle by done.
  rewrite decide_True by by rewrite length_replicate.
  rewrite merge_results_all_rejected, set_orders_same.
  rewrite (delete_middle (inflight w) []). by rewrite app_nil_r.
Qed.

Lemma failing_rounds_run n w h :
  inv w → pollingInterval (state w) = Some h →
  activeOrders (orders (state w)) ≠ [] →
  run w (failing_rounds n h (length (inflight w))
           (length (activeOrders (orders (state w))))) =
  Some {| state := state w; timers := timers w; next_handle := next_handle w;
          inflight := inflight w;
          sent := sent w ++
                  mjoin (replicate n (ids (activeOrders (orders (state w))))) |}.
Proof.
  revert w. induction n as [|n IH]; intros w Hw Hh Hact.
  - simpl. rewrite app_nil_r. by destruct w.
  - unfold failing_rounds. rewrite replicate_S. simpl mjoin.
    change (?a :: ?b :: ?l) with ([a; b] ++ l).
    rewrite run_app, failing_round by done. simpl mbind.
    pose proof (run_preserves inv inv_step _ _ _ Hw (failing_round w h Hw Hh Hact))
      as Hw1.
    specialize (IH _ Hw1 Hh Hact). simpl in IH. unfold failing_rounds in IH.
    rewrite IH. by rewrite <- app_assoc.
Qed.

(** X8.  A failing server is polled without end: while a timer runs
    and some cached order is non-terminal, any number of rounds of a
    tick followed by its batch settling with every request rejected
    can run; they leave the store, the timer and the calls in flight as
    they were, and each round sends one request per active order
    again.  There is no retry limit and no backoff. *)
Theorem polling_never_gives_up n w h :
  reachable w → pollingInterval (state w) = Some h →
  activeOrders (orders (state w)) ≠ [] →
  run w (failing_rounds n h (length (inflight w))
           (length (activeOrders (orders (state w))))) =
  Some {| state := state w; timers := timers w; next_handle := next_handle w;
          inflight := inflight w;
          sent := sent w ++
                  mjoin (replicate n (ids (activeOrders (orders (state w))))) |}.
Proof. intros Hw%reachable_inv. by apply failing_rounds_run. Qed.

Lemma polling_never_gives_up_witness :
  reachable two_batches_world
  ∧ pollingInterval (state two_batches_world) = Some 1%positive
  ∧ sent <$> run two_batches_world (failing_rounds 3 1 2 2) =
      Some (sent two_batches_world ++ ["A"; "B"; "A"; "B"; "A"; "B"]).
Proof.
  assert (Hr : reachable two_batches_world)
    by (exists two_batches_trace; vm_compute; reflexivity).
  split_and!; [exact Hr|reflexivity|].
  assert (Hact : activeOrders (orders (state two_batches_world)) ≠ [])
    by (vm_compute; discriminate).
  pose proof (polling_never_gives_up 3 two_batches_world 1 Hr eq_refl Hact) as H.
  change (length (inflight two_batches_world)) with 2 in H.
  change (length (activeOrders (orders (state two_batches_world)))) with 2 in H.
  rewrite H. reflexivity.
Defined.

Lemma run_cons w e es : run w (e :: es) = step w e ≫= λ w', run w' es.
Proof. simpl. by destruct (step w e). Qed.

Lemma run_step w e w1 es : step w e = Some w1 → run w (e :: es) = run w1 es.
Proof. intros H. rewrite run_cons, H. done. Qed.

Lemma silent_ticks_run n w h :
  inv w → pollingInterval (state w) = Some h →
  activeOrders (orders (state w)) ≠ [] →
  run w (silent_ticks n h) =
  Some {| state := state w; timers := timers w; next_handle := next_handle w;
          inflight := inflight w ++ replicate n (activeOrders (orders (state w)));
          sent := sent w ++
                  mjoin (replicate n (ids (activeOrders (orders (state w))))) |}.
Proof.
  revert w. induction n as [|n IH]; intros w Hw Hh Hact.
  - simpl. rewrite !app_nil_r. by destruct w.
  - unfold silent_ticks. rewrite replicate_S, run_cons.
    rewrite (tick_enabled w h) by done. simpl mbind.
    pose proof (inv_pollOrders w Hw) as Hw1.
    assert (Hpoll : pollOrders w =
      {| state := state w; timers := timers w; next_handle := next_handle w;
         inflight := inflight w ++ [activeOrders (orders (state w))];
         sent := sent w ++ ids (activeOrders (orders (state w))) |}).
    { unfold pollOrders. by rewrite decide_False
        by (intros Hl; by apply nil_length_inv in Hl). }
    rewrite Hpoll in *. unfold silent_ticks in IH.
    rewrite IH by done. simpl. by rewrite <- !app_assoc.
Qed.

(** X9.  Ticks are not held back by polls still in flight: while a
    timer runs and some cached order is non-terminal, any number of
    ticks can fire with no batch settling in between, and each one
    suspends one more poll for the same orders and sends one more
    request per active order. *)
Theorem ticks_overlap_without_guard n w h :
  reachable w → pollingInterval (state w) = Some h →
  activeOrders (orders (state w)) ≠ [] →
  run w (silent_ticks n h) =
  Some {| state := state w; timers := timers w; next_handle := next_handle w;
          inflight := inflight w ++ replicate n (activeOrders (orders (state w)));
          sent := sent w ++
                  mjoin (replicate n (ids (activeOrders (orders (state w))))) |}.
Proof. intros Hw%reachable_inv. by apply silent_ticks_run. Qed.

Lemma ticks_overlap_without_guard_witness :
  reachable two_batches_world
  ∧ pollingInterval (state two_batches_world) = Some 1%positive
  ∧ (λ w, length (inflight w)) <$> run two_batches_world (silent_ticks 3 1) = Some 5.
Proof.
  assert (Hr : reachable two_batches_world)
    by (exists two_batches_trace; vm_compute; reflexivity).
  split_and!; [exact Hr|reflexivity|].
  assert (Hact : activeOrders (orders (state two_batches_world)) ≠ [])
    by (vm_compute; discriminate).
  rewrite (ticks_overlap_without_guard 3 two_batches_world 1 Hr eq_refl Hact).
  reflexivity.
Defined.

(** X10.  A record added with a new id and a non-terminal status is
    cached as it was given, a timer is running afterwards, and the
    next tick of that timer is enabled and asks for every order that
    was active before and, last, for the new one. *)
Theorem added_order_is_polled w o :
  reachable w →
  id o ∉ ids (orders (state w)) →
  is_terminal (status o) = false →
  cached (id o) (addOrder o w) = Some o
  ∧ ∃ h, pollingInterval (state (addOrder o w)) = Some h
       ∧ step (addOrder o w) (EvTick h) = Some (pollOrders (addOrder o w))
       ∧ sent (pollOrders (addOrder o w)) =
           sent w ++ ids (activeOrders (orders (state w))) ++ [id o].
Proof.
  intros Hw%reachable_inv Hnew Hact.
  pose proof (inv_addOrder o w Hw) as Hw1. pose proof Hw1 as [Hnd1 _ _].
  assert (Ho : orders (state (addOrder o w)) = orders (state w) ++ [o]).
  { rewrite orders_addOrder. by rewrite decide_False. }
  split.
  - unfold cached. apply find_order_lookup with (length (orders (state w))); [done|].
    rewrite Ho. by apply list_lookup_middle.
  - eexists. split; [|split].
    + unfold addOrder. rewrite pollingInterval_startPolling. reflexivity.
    + apply tick_enabled; [done|]. unfold addOrder.
      by rewrite pollingInterval_startPolling.
    + rewrite sent_pollOrders, sent_addOrder, Ho. unfold activeOrders.
      rewrite filter_app, filter_cons, decide_True by done.
      unfold ids. by rewrite fmap_app.
Qed.

Lemma added_order_is_polled_witness :
  reachable two_batches_world
  ∧ ("C" ∉ ids (orders (state two_batches_world)))
  ∧ cached "C" (addOrder (sample "C" "ACCEPTED" 0) two_batches_world) =
      Some (sample "C" "ACCEPTED" 0)
  ∧ sent (pollOrders (addOrder (sample "C" "ACCEPTED" 0) two_batches_world)) =
      sent two_batches_world ++ ["A"; "B"] ++ ["C"].
Proof.
  assert (Hr : reachable two_batches_world)
    by (exists two_batches_trace; vm_compute; reflexivity).
  assert (Hnew : "C" ∉ ids (orders (state two_batches_world))).
  { vm_compute. intros H. apply list_elem_of_In in H. simpl in H.
    destruct H as [H|[H|[]]]; discriminate H. }
  destruct (added_order_is_polled two_batches_world (sample "C" "ACCEPTED" 0)
              Hr Hnew eq_refl) as (Hc & h & _ & _ & Hs).
  split_and!; [exact Hr|exact Hnew|exact Hc|exact Hs].
Defined.

Lemma getOrderStatus_inj a b : getOrderStatus a = getOrderStatus b → a = b.
Proof. unfold getOrderStatus. apply (inj (String.append "/trade/order/")). Qed.

(** X11.  The paths one tick requests are pairwise distinct: no order
    is asked for twice in a tick, and two orders never share a path. *)
Theorem tick_paths_distinct w :
  reachable w →
  NoDup (getOrderStatus <$> ids (activeOrders (orders (state w)))).
Proof.
  intros Hw%reachable_inv. destruct Hw as [Hnd _ _].
  apply NoDup_fmap_2_strong; [|by apply NoDup_ids_activeOrders].
  intros a b _ _. apply getOrderStatus_inj.
Qed.

Lemma tick_paths_distinct_witness :
  reachable two_batches_world
  ∧ NoDup ["/trade/order/A"; "/trade/order/B"].
Proof.
  assert (Hr : reachable two_batches_world)
    by (exists two_batches_trace; vm_compute; reflexivity).
  split; [exact Hr|]. apply (tick_paths_distinct two_batches_world Hr).
Defined.

Lemma replace_slash_no_slash s : has_slash s = false → replace_slash s = s.
Proof.
  induction s as [|c s IH]; [done|]. simpl.
  intros [Hc Hs]%orb_false_iff. rewrite Hc. by rewrite IH.
Qed.

(** X12.  The symbol put in the order payload is the instrument symbol
    without its first slash: a symbol without a slash goes out as it
    is, and [base/rest] goes out as [base] followed by [rest], with
    any further slash of [rest] kept. *)
Theorem replace_slash_first base rest :
  has_slash base = false →
  replace_slash base = base
  ∧ replace_slash (base +:+ "/" +:+ rest) = base +:+ rest.
Proof.
  intros Hb. split; [by apply replace_slash_no_slash|].
  induction base as [|c base IH]; [done|]. simpl in *.
  apply orb_false_iff in Hb as [Hc Hb]. rewrite Hc. by rewrite IH.
Qed.

Lemma replace_slash_first_witness :
  has_slash "BTC" = false
  ∧ replace_slash "BTC/USDT" = "BTCUSDT".
Proof.
  split; [reflexivity|].
  apply (proj2 (replace_slash_first "BTC" "USDT" eq_refl)).
Defined.

Lemma merge_results_all_terminal os rs :
  NoDup (ids os) →
  answers (activeOrders os) rs →
  Forall (λ r, match r with
               | fulfilled u => is_terminal (status u) = true
               | rejected _ => False
               end) rs →
  Forall (λ o, is_terminal (status o) = true) (merge_results os rs).
Proof.
  intros Hnd Hans Hterm. apply Forall_lookup. intros n o' Hn'.
  assert (∃ o, os !! n = Some o) as [o Hn].
  { apply lookup_lt_is_Some. rewrite <- (length_merge_results os rs).
    by eapply lookup_lt_Some. }
  destruct (merge_results_slot os rs n (id o)) as (x & Hx & Hid & Hsrc).
  { unfold ids. by rewrite list_lookup_fmap, Hn. }
  assert (x = o') as -> by congruence.
  destruct Hsrc as [Hsame|Hin].
  - assert (o' = o) as -> by congruence.
    destruct (is_terminal (status o)) eqn:Ht; [done|]. exfalso.
    assert (Hact : o ∈ activeOrders os).
    { unfold activeOrders. apply list_elem_of_filter. split; [done|].
      by eapply list_elem_of_lookup_2. }
    apply list_elem_of_lookup_1 in Hact as [j Hj].
    destruct (Forall2_lookup_l _ _ _ _ _ Hans Hj) as (r & Hr & Hor).
    pose proof (Forall_lookup_1 _ _ _ _ Hterm Hr) as Hrt.
    destruct r as [u|reason]; [|done]. simpl in Hor.
    assert (Hfi : findIndex (id u) os = Some n).
    { rewrite Hor. by apply findIndex_NoDup. }
    pose proof (merge_results_last os rs j u n Hr Hfi
      (answers_no_later _ _ _ _ (NoDup_ids_activeOrders os Hnd) Hans Hr)) as Hu.
    assert (u = o) as -> by congruence. congruence.
  - by apply (proj1 (Forall_forall _ _) Hterm (fulfilled o')).
Qed.

Lemma activeOrders_nil os :
  Forall (λ o, is_terminal (status o) = true) os → activeOrders os = [].
Proof.
  intros H. apply elem_of_nil_inv. intros o [Hact Hin]%list_elem_of_filter.
  rewrite Forall_forall in H. specialize (H o Hin). congruence.
Qed.

(** X19.  Polling ends by itself: when a timer runs and the batch of a
    tick settles with a terminal record for every order asked for, the
    cache holds terminal records only, and the following tick sends
    nothing and stops the timer. *)
Theorem polling_halts_when_all_terminal w h rs :
  reachable w →
  pollingInterval (state w) = Some h →
  activeOrders (orders (state w)) ≠ [] →
  answers (activeOrders (orders (state w))) rs →
  Forall (λ r, match r with
               | fulfilled u => is_terminal (status u) = true
               | rejected _ => False
               end) rs →
  ∃ w', run w [EvTick h; EvSettle (length (inflight w)) rs; EvTick h] = Some w'
        ∧ orders (state w') = merge_results (orders (state w)) rs
        ∧ Forall (λ o, is_terminal (status o) = true) (orders (state w'))
        ∧ pollingInterval (state w') = None
        ∧ timers w' = ∅
        ∧ inflight w' = inflight w
        ∧ sent w' = sent w ++ ids (activeOrders (orders (state w))).
Proof.
  intros Hw%reachable_inv Hh Hact Hans Hterm. pose proof Hw as [Hnd _ _].
  pose proof (merge_results_all_terminal _ _ Hnd Hans Hterm) as Hall.
  set (w1 := {| state := state w; timers := timers w;
                next_handle := next_handle w;
                inflight := inflight w ++ [activeOrders (orders (state w))];
                sent := sent w ++ ids (activeOrders (orders (state w))) |}).
  set (w2 := {| state := set_orders (merge_results (orders (state w)) rs) (state w);
                timers := timers w; next_handle := next_handle w;
                inflight := inflight w;
                sent := sent w ++ ids (activeOrders (orders (state w))) |}).
  assert (Hpoll : pollOrders w = w1).
  { unfold pollOrders. by rewrite decide_False
      by (intros Hl; by apply nil_length_inv in Hl). }
  assert (Hset : step w1 (EvSettle (length (inflight w)) rs) = Some w2).
  { unfold step, settle, w1. simpl. rewrite list_lookup_middle by done.
    rewrite decide_True by (symmetry; by eapply Forall2_length).
    rewrite (delete_middle (inflight w) []). by rewrite app_nil_r. }
  assert (Hw1 : inv w1) by (rewrite <- Hpoll; by apply inv_pollOrders).
  pose proof (inv_step _ _ _ Hw1 Hset) as Hw2.
  assert (Hpoll2 : pollOrders w2 = stopPolling w2).
  { unfold pollOrders. cbn [w2 state orders set_orders].
    rewrite (activeOrders_nil _ Hall). by rewrite decide_True. }
  exists (stopPolling w2). split.
  - rewrite (run_step w _ w1) by (rewrite <- Hpoll; by apply tick_enabled).
    rewrite (run_step w1 _ w2) by done.
    rewrite (run_step w2 _ (stopPolling w2))
      by (rewrite <- Hpoll2; by apply tick_enabled).
    done.
  - pose proof (inv_stopPolling _ Hw2) as [_ Ht _].
    rewrite pollingInterval_stopPolling in Ht.
    rewrite orders_stopPolling, pollingInterval_stopPolling,
      inflight_stopPolling, sent_stopPolling. simpl.
    split_and!; done.
Qed.

Lemma polling_halts_when_all_terminal_witness :
  reachable (addOrder A_submitted busy_world)
  ∧ answers (activeOrders (orders (state (addOrder A_submitted busy_world))))
      [fulfilled B_filled; fulfilled A_filled]
  ∧ (λ w, (pollingInterval (state w), sent w)) <$>
      run (addOrder A_submitted busy_world)
        [EvTick 1; EvSettle 0 [fulfilled B_filled; fulfilled A_filled]; EvTick 1]
    = Some (None, ["B"; "A"]).
Proof.
  assert (Hr : reachable (addOrder A_submitted busy_world))
    by (exists [EvAddOrder B_submitted; EvAddOrder A_submitted]; reflexivity).
  assert (Hans : answers (activeOrders (orders (state (addOrder A_submitted busy_world))))
      [fulfilled B_filled; fulfilled A_filled]) by (repeat constructor).
  split_and!; [exact Hr|exact Hans|].
  destruct (polling_halts_when_all_terminal (addOrder A_submitted busy_world) 1
              [fulfilled B_filled; fulfilled A_filled] Hr eq_refl)
    as (w' & Hrun & _ & _ & Hp & _ & _ & Hs); [vm_compute; discriminate|exact Hans| |].
  - repeat constructor.
  - change (length (inflight (addOrder A_submitted busy_world))) with 0 in Hrun.
    rewrite Hrun. simpl. rewrite Hp, Hs. reflexivity.
Defined.

End Store.

(** ** The orders table *)

Section Table.
Implicit Types (o p q : order) (os cs ps : list order) (i : string)
  (m : gmap string (list order)) (rs : list row).

Lemma children_in_cons_parent o os i :
  parent_of o = Some i → children_in (o :: os) i = o :: children_in os i.
Proof. intros H. unfold children_in. by rewrite filter_cons, decide_True. Qed.

Lemma children_in_cons_other o os i :
  parent_of o ≠ Some i → children_in (o :: os) i = children_in os i.
Proof. intros H. unfold children_in. by rewrite filter_cons, decide_False. Qed.

(** The fold, from any accumulator: what was grouped stays in front. *)
Lemma foldl_group_child_Some os m0 :
  (∀ o i, o ∈ os → parent_of o = Some i → inherited i = false) →
  ∃ m, foldl group_child (Some m0) os = Some m ∧
       ∀ i, m !! i = match m0 !! i, children_in os i with
                     | None, [] => None
                     | None, cs => Some cs
                     | Some cs0, cs => Some (cs0 ++ cs)
                     end.
Proof.
  revert m0. induction os as [|o os IH]; intros m0 Hok.
  - exists m0. split; [done|]. intros i. simpl.
    destruct (m0 !! i); [by rewrite app_nil_r|done].
  - assert (Hok' : ∀ o i, o ∈ os → parent_of o = Some i → inherited i = false).
    { intros ? ? ?. apply Hok. by right. }
    simpl. destruct (parent_of o) as [q|] eqn:Eq.
    + assert (Hq : inherited q = false) by (apply (Hok o); [by left|done]).
      destruct (m0 !! q) as [cs|] eqn:Em.
      * destruct (IH (<[q := cs ++ [o]]> m0) Hok') as (m & Hm & Hlook).
        exists m. split; [done|]. intros i. rewrite Hlook.
        destruct (decide (i = q)) as [->|Hne].
        -- rewrite lookup_insert_eq, Em, children_in_cons_parent by done.
           by rewrite <- app_assoc.
        -- rewrite lookup_insert_ne by done.
           rewrite (children_in_cons_other o) by congruence. done.
      * rewrite Hq.
        destruct (IH (<[q := [o]]> m0) Hok') as (m & Hm & Hlook).
        exists m. split; [done|]. intros i. rewrite Hlook.
        destruct (decide (i = q)) as [->|Hne].
        -- rewrite lookup_insert_eq, Em, children_in_cons_parent by done. done.
        -- rewrite lookup_insert_ne by done.
           rewrite (children_in_cons_other o) by congruence. done.
    + destruct (IH m0 Hok') as (m & Hm & Hlook).
      exists m. split; [done|]. intros i. rewrite Hlook.
      rewrite (children_in_cons_other o) by congruence. done.
Qed.

Lemma childOrdersByParent_lookup os :
  (∀ o i, o ∈ os → parent_of o = Some i → inherited i = false) →
  ∃ m, childOrdersByParent os = Some m ∧
       ∀ i, m !! i = match children_in os i with
                     | [] => None
                     | cs => Some cs
                     end.
Proof.
  intros Hok. destruct (foldl_group_child_Some os ∅ Hok) as (m & Hm & Hlook).
  exists m. split; [done|]. intros i. rewrite Hlook. by rewrite lookup_empty.
Qed.

(** X13.  When no cached order names a parent id that an object
    literal inherits, the grouping has one entry per parent id named
    by some cached order, holding exactly the orders that name it, in
    cache order; an id named by none has no entry. *)
Theorem childOrdersByParent_groups os :
  (∀ o i, o ∈ os → parent_of o = Some i → inherited i = false) →
  ∃ m, childOrdersByParent os = Some m ∧
       ∀ i, m !! i = match children_in os i with
                     | [] => None
                     | cs => Some cs
                     end.
Proof.
  intros Hok. destruct (foldl_group_child_Some os ∅ Hok) as (m & Hm & Hlook).
  exists m. split; [done|]. intros i. rewrite Hlook. by rewrite lookup_empty.
Qed.

Lemma childOrdersByParent_groups_witness :
  (∀ o i, o ∈ table_orders → parent_of o = Some i → inherited i = false)
  ∧ ∃ m, childOrdersByParent table_orders = Some m
         ∧ m !! "P" = Some [slice "P1" "FILLED" "P"; slice "P2" "SUBMITTED" "P"]
         ∧ m !! "A" = None.
Proof.
  assert (Hok : ∀ o i, o ∈ table_orders → parent_of o = Some i →
                       inherited i = false).
  { intros o i Ho%list_elem_of_In. simpl in Ho.
    destruct Ho as [<-|[<-|[<-|[<-|[]]]]]; vm_compute; intros [= <-]; reflexivity. }
  split; [exact Hok|].
  destruct (childOrdersByParent_groups table_orders Hok) as (m & Hm & Hlook).
  exists m. split_and!; [exact Hm|apply (Hlook "P")|apply (Hlook "A")].
Defined.

Lemma foldl_group_child_cons acc o os :
  foldl group_child acc (o :: os) = foldl group_child (group_child acc o) os.
Proof. done. Qed.

Lemma group_child_own_keys m o m' :
  own_keys_ok m → group_child (Some m) o = Some m' → own_keys_ok m'.
Proof.
  intros Hm. simpl. destruct (parent_of o) as [q|]; [|by intros [= <-]].
  destruct (m !! q) as [cs|] eqn:Em.
  - intros [= <-] i Hi. rewrite lookup_insert_ne; [by apply Hm|].
    intros <-. rewrite Hm in Em by done. done.
  - destruct (inherited q) eqn:Eq; [done|]. intros [= <-] i Hi.
    rewrite lookup_insert_ne; [by apply Hm|]. intros <-. congruence.
Qed.

Lemma foldl_group_child_None os : foldl group_child None os = None.
Proof. by induction os. Qed.

Lemma foldl_group_child_own_keys os m0 m :
  own_keys_ok m0 → foldl group_child (Some m0) os = Some m → own_keys_ok m.
Proof.
  revert m0. induction os as [|o os IH]; intros m0 Hm0.
  - by intros [= <-].
  - rewrite foldl_group_child_cons.
    destruct (group_child (Some m0) o) as [m1|] eqn:E.
    + apply IH. by eapply group_child_own_keys.
    + by rewrite foldl_group_child_None.
Qed.

Lemma foldl_group_child_throws os m0 o i :
  own_keys_ok m0 → o ∈ os → parent_of o = Some i → inherited i = true →
  foldl group_child (Some m0) os = None.
Proof.
  revert m0. induction os as [|x os IH]; intros m0 Hm0 Hin Hp Hi;
    [by apply elem_of_nil in Hin|].
  rewrite foldl_group_child_cons.
  destruct (group_child (Some m0) x) as [m1|] eqn:E;
    [|by rewrite foldl_group_child_None].
  apply elem_of_cons in Hin as [->|Hin].
  - simpl in E. rewrite Hp, (Hm0 i Hi), Hi in E. done.
  - apply IH; [by eapply group_child_own_keys|done..].
Qed.

Lemma foldl_group_child_None_inv os m0 :
  foldl group_child (Some m0) os = None →
  ∃ o i, o ∈ os ∧ parent_of o = Some i ∧ inherited i = true.
Proof.
  revert m0. induction os as [|x os IH]; intros m0; simpl; [done|].
  destruct (parent_of x) as [q|] eqn:Eq.
  - destruct (m0 !! q) as [cs|].
    + intros (o & i & ? & ?)%IH. exists o, i. split; [by right|done].
    + destruct (inherited q) eqn:Ei.
      * intros _. exists x, q. split; [by left|done].
      * intros (o & i & ? & ?)%IH. exists o, i. split; [by right|done].
  - intros (o & i & ? & ?)%IH. exists o, i. split; [by right|done].
Qed.

Lemma children_of_None m p :
  own_keys_ok m → (children_of m p = None ↔ inherited (id p) = true).
Proof.
  intros Hm. unfold children_of. split.
  - destruct (m !! id p); [done|]. by destruct (inherited (id p)).
  - intros Hi. by rewrite (Hm _ Hi), Hi.
Qed.

Lemma childOrdersByParent_Some_ok os m :
  childOrdersByParent os = Some m →
  ∀ o i, o ∈ os → parent_of o = Some i → inherited i = false.
Proof.
  intros Hm o i Hin Hp. destruct (inherited i) eqn:Hi; [|done].
  unfold childOrdersByParent in Hm.
  rewrite (foldl_group_child_throws os ∅ o i) in Hm; [done| |done..].
  by intros ? _.
Qed.

Lemma children_of_Some os m p cs :
  childOrdersByParent os = Some m → children_of m p = Some cs →
  cs = children_in os (id p).
Proof.
  intros Hm Hc.
  destruct (childOrdersByParent_lookup os (childOrdersByParent_Some_ok os m Hm))
    as (m' & Hm' & Hlook).
  assert (m' = m) as -> by congruence.
  unfold children_of in Hc. rewrite Hlook in Hc.
  destruct (children_in os (id p)) as [|c cs']; [|congruence].
  destruct (inherited (id p)); congruence.
Qed.

Lemma displayed_app rs1 rs2 : displayed (rs1 ++ rs2) = displayed rs1 ++ displayed rs2.
Proof. apply bind_app. Qed.

Lemma displayed_parents os ps :
  displayed ((λ p, ParentOrderDisclosure p (children_in os (id p))) <$> ps) =
  ps ≫= λ p, p :: children_in os (id p).
Proof.
  induction ps as [|p ps IH]; [done|]. unfold displayed in *.
  by rewrite fmap_cons, !bind_cons, IH.
Qed.

Lemma displayed_regular os : displayed (OrderRow <$> os) = os.
Proof.
  induction os as [|o os IH]; [done|]. unfold displayed in *.
  by rewrite fmap_cons, bind_cons, IH.
Qed.

Lemma mapM_render_OrderRow cs cs' : mapM render_OrderRow cs = Some cs' → cs' = cs.
Proof.
  intros H%mapM_Some_1. induction H as [|o o' l k Ho _ IH]; [done|].
  f_equal; [|done]. unfold render_OrderRow in Ho.
  destruct (price o) as [[n|s]|]; congruence.
Qed.

Lemma mapM_render_OrderRow_None cs o :
  o ∈ cs → text_priced o → mapM render_OrderRow cs = None.
Proof.
  intros Hin [s Hs]. apply mapM_None_2, Exists_exists. exists o.
  split; [done|]. unfold render_OrderRow. by rewrite Hs.
Qed.

Lemma render_ParentOrderDisclosure_Some os m p r :
  childOrdersByParent os = Some m →
  render_ParentOrderDisclosure m p = Some r →
  r = ParentOrderDisclosure p (children_in os (id p)).
Proof.
  intros Hm. unfold render_ParentOrderDisclosure.
  destruct (children_of m p) as [cs|] eqn:Ec; [|done].
  destruct (mapM render_OrderRow cs) as [cs'|] eqn:Er; [|done].
  intros [= <-]. apply mapM_render_OrderRow in Er as ->.
  f_equal. by eapply children_of_Some.
Qed.

Lemma OrdersTable_rows os rs :
  OrdersTable os = Some (Table rs) →
  rs = ((λ p, ParentOrderDisclosure p (children_in os (id p))) <$> parentOrders os)
       ++ (OrderRow <$> regularOrders os).
Proof.
  unfold OrdersTable. destruct (childOrdersByParent os) as [m|] eqn:Em; [|done].
  case_decide; [done|].
  destruct (mapM _ (parentOrders os)) as [ps|] eqn:Ep; [|done].
  destruct (mapM render_OrderRow (regularOrders os)) as [reg|] eqn:Er; [|done].
  intros [= <-]. apply mapM_render_OrderRow in Er as ->. f_equal.
  apply mapM_Some_1 in Ep.
  induction Ep as [|p r l k Hr _ IH]; [done|]. simpl. f_equal; [|done].
  by eapply render_ParentOrderDisclosure_Some.
Qed.

Lemma OrdersTable_displayed os rs :
  OrdersTable os = Some (Table rs) →
  displayed rs =
    (parentOrders os ≫= λ p, p :: children_in os (id p)) ++ regularOrders os.
Proof.
  intros ->%OrdersTable_rows.
  by rewrite displayed_app, displayed_parents, displayed_regular.
Qed.

Lemma children_of_children_in os m p o :
  childOrdersByParent os = Some m → o ∈ children_in os (id p) →
  children_of m p = Some (children_in os (id p)).
Proof.
  intros Hm Ho.
  destruct (childOrdersByParent_lookup os (childOrdersByParent_Some_ok os m Hm))
    as (m' & Hm' & Hlook).
  assert (m' = m) as -> by congruence.
  unfold children_of. rewrite Hlook.
  destruct (children_in os (id p)); [by apply elem_of_nil in Ho|done].
Qed.

(** X14.  Rendering the table throws a TypeError whenever some cached
    order names a parent id that an object literal inherits (the
    reducer calls [push] on the inherited value), or some algorithmic
    order has such an id itself (its children are read from the
    inherited value), or some order shown as a row (a regular order,
    or a child of an algorithmic cached order) has a string as its
    price (the price cell calls [toFixed] on it). *)
Theorem OrdersTable_throws os o :
  o ∈ os →
  (∃ i, parent_of o = Some i ∧ inherited i = true)
  ∨ (is_algorithmic o = true ∧ inherited (id o) = true)
  ∨ (text_priced o ∧ ((is_algorithmic o = false ∧ parent_of o = None)
                      ∨ parent_in (parentOrders os) o)) →
  OrdersTable os = None.
Proof.
  intros Hin Hcase. unfold OrdersTable.
  destruct (childOrdersByParent os) as [m|] eqn:Em; [|done].
  rewrite decide_False by (destruct os; [by apply elem_of_nil in Hin|done]).
  destruct Hcase as [(i & Hp & Hi)|[[Halg Hi]|[Htext [Hreg|Hpar]]]].
  - unfold childOrdersByParent in Em.
    rewrite (foldl_group_child_throws os ∅ o i) in Em; [done| |done..].
    by intros ? _.
  - rewrite (mapM_None_2 _ (parentOrders os)); [done|].
    apply Exists_exists. exists o. split.
    + unfold parentOrders. by apply list_elem_of_filter.
    + unfold render_ParentOrderDisclosure.
      assert (Hc : children_of m o = None); [|by rewrite Hc].
      apply children_of_None; [|done]. unfold childOrdersByParent in Em.
      eapply foldl_group_child_own_keys; [|exact Em]. by intros ? _.
  - rewrite (mapM_render_OrderRow_None (regularOrders os) o); [|by apply list_elem_of_filter|done].
    by destruct (mapM _ (parentOrders os)).
  - unfold parent_in in Hpar. destruct (parent_of o) as [i|] eqn:Ei; [|done].
    apply list_elem_of_fmap in Hpar as (p & -> & Hp).
    rewrite (mapM_None_2 _ (parentOrders os)); [done|].
    apply Exists_exists. exists p. split; [done|].
    unfold render_ParentOrderDisclosure.
    rewrite (children_of_children_in os m p o Em)
      by (unfold children_in; by apply list_elem_of_filter).
    rewrite (mapM_render_OrderRow_None _ o); [done| |done].
    unfold children_in. by apply list_elem_of_filter.
Qed.

Lemma OrdersTable_throws_witness :
  text_priced_order ∈ text_priced_order :: table_orders
  ∧ text_priced text_priced_order
  ∧ OrdersTable (text_priced_order :: table_orders) = None
  ∧ OrdersTable (slice "P3" "SUBMITTED" "toString" :: table_orders) = None.
Proof.
  assert (Hin : text_priced_order ∈ text_priced_order :: table_orders) by (by left).
  assert (Ht : text_priced text_priced_order) by (by eexists).
  split_and!; [exact Hin|exact Ht| |].
  - apply (OrdersTable_throws _ text_priced_order Hin).
    right. right. split; [exact Ht|]. left. split; reflexivity.
  - apply (OrdersTable_throws _ (slice "P3" "SUBMITTED" "toString")); [by left|].
    left. exists "toString". split; reflexivity.
Defined.

(** X15.  When the table renders, it shows one disclosure per
    algorithmic cached order, in cache order, each holding the cached
    orders that name it as parent, in cache order, followed by one row
    per cached order that is neither algorithmic nor has a parent. *)
Theorem OrdersTable_layout os rs :
  OrdersTable os = Some (Table rs) →
  rs = ((λ p, ParentOrderDisclosure p (children_in os (id p))) <$> parentOrders os)
       ++ (OrderRow <$> regularOrders os)
  ∧ displayed rs =
      (parentOrders os ≫= λ p, p :: children_in os (id p)) ++ regularOrders os.
Proof.
  intros H. split; [by apply OrdersTable_rows|by apply OrdersTable_displayed].
Qed.

Lemma OrdersTable_layout_witness :
  OrdersTable (orphan :: table_orders) =
    Some (Table [ParentOrderDisclosure twap_parent
                   [slice "P1" "FILLED" "P"; slice "P2" "SUBMITTED" "P"];
                 OrderRow A_submitted])
  ∧ displayed [ParentOrderDisclosure twap_parent
                   [slice "P1" "FILLED" "P"; slice "P2" "SUBMITTED" "P"];
               OrderRow A_submitted] =
    [twap_parent; slice "P1" "FILLED" "P"; slice "P2" "SUBMITTED" "P"; A_submitted].
Proof.
  assert (H : OrdersTable (orphan :: table_orders) =
    Some (Table [ParentOrderDisclosure twap_parent
                   [slice "P1" "FILLED" "P"; slice "P2" "SUBMITTED" "P"];
                 OrderRow A_submitted])) by (vm_compute; reflexivity).
  split; [exact H|].
  rewrite (proj2 (OrdersTable_layout _ _ H)). vm_compute. reflexivity.
Defined.

Lemma elem_of_displayed os o :
  o ∈ (parentOrders os ≫= λ p, p :: children_in os (id p)) ++ regularOrders os ↔
  o ∈ os ∧ (is_algorithmic o = true
            ∨ (is_algorithmic o = false ∧ parent_of o = None)
            ∨ parent_in (parentOrders os) o).
Proof.
  rewrite elem_of_app, list_elem_of_bind. unfold regularOrders, parentOrders.
  rewrite list_elem_of_filter. split.
  - intros [(p & Hp & Hpin)|[Hreg Hin]]; [|by auto].
    apply list_elem_of_filter in Hpin as [Halg Hpin].
    apply elem_of_cons in Hp as [->|Hc]; [by auto|].
    unfold children_in in Hc. apply list_elem_of_filter in Hc as [Hpar Hin].
    split; [done|]. right. right. unfold parent_in. rewrite Hpar.
    apply list_elem_of_fmap. exists p. split; [done|].
    by apply list_elem_of_filter.
  - intros [Hin [Halg|[Hreg|Hpar]]].
    + left. exists o. split; [by left|]. by apply list_elem_of_filter.
    + by right.
    + left. unfold parent_in in Hpar.
      destruct (parent_of o) as [i|] eqn:Ei; [|done].
      apply list_elem_of_fmap in Hpar as (p & -> & Hp).
      exists p. split; [|done]. right. unfold children_in.
      by apply list_elem_of_filter.
Qed.

(** X16.  When the table renders, a cached order is on screen exactly
    when it is algorithmic, or has no parent, or names as parent the id
    of an algorithmic cached order.  An order whose parent is not
    cached, or is cached but not algorithmic, is in the cache but
    shown nowhere. *)
Theorem displayed_iff os rs o :
  OrdersTable os = Some (Table rs) →
  (o ∈ displayed rs ↔
   o ∈ os ∧ (is_algorithmic o = true
             ∨ (is_algorithmic o = false ∧ parent_of o = None)
             ∨ parent_in (parentOrders os) o))
  ∧ (o ∈ os → is_algorithmic o = false → ¬ parent_in (parentOrders os) o →
     is_Some (parent_of o) → o ∉ displayed rs).
Proof.
  intros ->%OrdersTable_displayed. split; [apply elem_of_displayed|].
  intros Hin Halg Hnp [i Hi] [_ [?|[[_ ?]|?]]]%elem_of_displayed; congruence.
Qed.

Lemma displayed_iff_witness :
  OrdersTable (orphan :: table_orders) =
    Some (Table [ParentOrderDisclosure twap_parent
                   [slice "P1" "FILLED" "P"; slice "P2" "SUBMITTED" "P"];
                 OrderRow A_submitted])
  ∧ orphan ∈ orphan :: table_orders
  ∧ orphan ∉ displayed [ParentOrderDisclosure twap_parent
                          [slice "P1" "FILLED" "P"; slice "P2" "SUBMITTED" "P"];
                        OrderRow A_submitted].
Proof.
  assert (H : OrdersTable (orphan :: table_orders) =
    Some (Table [ParentOrderDisclosure twap_parent
                   [slice "P1" "FILLED" "P"; slice "P2" "SUBMITTED" "P"];
                 OrderRow A_submitted])) by (vm_compute; reflexivity).
  assert (Hin : orphan ∈ orphan :: table_orders) by (by left).
  split_and!; [exact H|exact Hin|].
  apply (proj2 (displayed_iff _ _ orphan H) Hin eq_refl).
  - unfold parent_in. vm_compute. intros Hq. apply list_elem_of_In in Hq.
    simpl in Hq. destruct Hq as [Hq|[]]. discriminate Hq.
  - by eexists.
Defined.

Lemma filter_split {A} (P Q R : A → Prop)
    `{!∀ x, Decision (P x), !∀ x, Decision (Q x), !∀ x, Decision (R x)}
    (l : list A) :
  (∀ x, x ∈ l → (R x ↔ P x ∨ Q x)) →
  (∀ x, x ∈ l → P x → Q x → False) →
  filter R l ≡ₚ filter P l ++ filter Q l.
Proof.
  induction l as [|x l IH]; intros Hiff Hdis; [done|].
  assert (IH' : filter R l ≡ₚ filter P l ++ filter Q l).
  { apply IH; intros y Hy; [apply Hiff|apply Hdis]; by right. }
  pose proof (Hiff x (list_elem_of_here _ _)) as Hx.
  pose proof (Hdis x (list_elem_of_here _ _)) as Hd.
  rewrite !filter_cons.
  destruct (decide (P x)) as [HP|HP]; destruct (decide (Q x)) as [HQ|HQ].
  - by destruct Hd.
  - rewrite decide_True by tauto. simpl. by rewrite IH'.
  - rewrite decide_True by tauto. rewrite IH'. apply Permutation_middle.
  - rewrite decide_False by tauto. done.
Qed.

Lemma bind_cons_split os ps :
  (ps ≫= λ p, p :: children_in os (id p)) ≡ₚ
  ps ++ (ps ≫= λ p, children_in os (id p)).
Proof.
  induction ps as [|p ps IH]; [done|]. rewrite !bind_cons. simpl.
  constructor. rewrite IH, !app_assoc. f_equiv. apply Permutation_app_comm.
Qed.

Lemma bind_children_in os ps :
  NoDup (ids ps) →
  (ps ≫= λ p, children_in os (id p)) ≡ₚ filter (parent_in ps) os.
Proof.
  induction ps as [|p ps IH]; intros Hnd.
  - simpl. symmetry. apply Permutation_nil_r.
    apply elem_of_nil_inv. intros o [Hpar _]%list_elem_of_filter.
    unfold parent_in in Hpar. destruct (parent_of o); [|done].
    by apply elem_of_nil in Hpar.
  - unfold ids in Hnd. rewrite fmap_cons in Hnd.
    apply NoDup_cons in Hnd as [Hp Hnd].
    rewrite bind_cons, IH by done. symmetry. apply filter_split.
    + intros o _. unfold parent_in, ids. rewrite fmap_cons.
      destruct (parent_of o) as [i|]; [|split; [done|by intros [?|?]]].
      rewrite elem_of_cons. split; [intros [->|?]|intros [[= ->]|?]]; auto.
    + intros o _ Ho Hin. unfold parent_in in Hin. rewrite Ho in Hin. done.
Qed.

Lemma NoDup_ids_parentOrders os : NoDup (ids os) → NoDup (ids (parentOrders os)).
Proof.
  intros H. eapply sublist_NoDup; [exact H|].
  unfold ids, parentOrders. apply fmap_sublist, sublist_filter.
Qed.

(** X17.  When ids are distinct and every cached order that names a
    parent is itself not algorithmic and names an algorithmic cached
    order, the table shows every cached order exactly once. *)
Theorem displayed_permutation os rs :
  OrdersTable os = Some (Table rs) →
  NoDup (ids os) →
  (∀ o i, o ∈ os → parent_of o = Some i →
     is_algorithmic o = false ∧
     ∃ p, p ∈ os ∧ is_algorithmic p = true ∧ id p = i) →
  displayed rs ≡ₚ os.
Proof.
  intros ->%OrdersTable_displayed Hnd Hwf.
  rewrite bind_cons_split, bind_children_in by by apply NoDup_ids_parentOrders.
  rewrite <- app_assoc.
  transitivity (filter (λ o, is_algorithmic o = true) os ++
                filter (λ o, is_algorithmic o ≠ true) os);
    [|apply filter_app_complement].
  unfold parentOrders at 1. f_equiv. symmetry. unfold regularOrders.
  apply filter_split.
  - intros o Hin. split.
    + intros Halg. destruct (parent_of o) as [i|] eqn:Ei.
      * left. unfold parent_in. rewrite Ei.
        destruct (Hwf o i Hin Ei) as (_ & p & Hp & Hpalg & <-).
        apply list_elem_of_fmap. exists p. split; [done|].
        unfold parentOrders. by apply list_elem_of_filter.
      * right. split; [|done]. by destruct (is_algorithmic o).
    + intros [Hpar|[Halg _]]; [|congruence]. unfold parent_in in Hpar.
      destruct (parent_of o) as [i|] eqn:Ei; [|done].
      destruct (Hwf o i Hin Ei) as [Halg _]. congruence.
  - intros o _ Hpar [_ Hnone]. unfold parent_in in Hpar. by rewrite Hnone in Hpar.
Qed.

Lemma displayed_permutation_witness :
  OrdersTable table_orders =
    Some (Table [ParentOrderDisclosure twap_parent
                   [slice "P1" "FILLED" "P"; slice "P2" "SUBMITTED" "P"];
                 OrderRow A_submitted])
  ∧ NoDup (ids table_orders)
  ∧ [twap_parent; slice "P1" "FILLED" "P"; slice "P2" "SUBMITTED" "P"; A_submitted]
      ≡ₚ table_orders.
Proof.
  assert (H : OrdersTable table_orders =
    Some (Table [ParentOrderDisclosure twap_parent
                   [slice "P1" "FILLED" "P"; slice "P2" "SUBMITTED" "P"];
                 OrderRow A_submitted])) by (vm_compute; reflexivity).
  assert (Hnd : NoDup (ids table_orders)).
  { apply (bool_decide_unpack _). vm_compute. exact I. }
  split_and!; [exact H|exact Hnd|].
  apply (displayed_permutation _ _ H Hnd).
  intros o i Ho%list_elem_of_In. simpl in Ho.
  destruct Ho as [<-|[<-|[<-|[<-|[]]]]]; vm_compute; intros [= <-];
    (split; [reflexivity|]); exists twap_parent;
    (split_and!; [|reflexivity..]); apply list_elem_of_In; simpl; auto.
Defined.

(** X18.  The progress of a TWAP parent never divides by zero and
    never counts more filled children than there are children: the
    total is non-zero whatever [num_children] holds, the filled count
    is at most the number of children, and when [num_children] is
    missing or zero the filled count is at most the total, with
    equality only when there is a child and every child is FILLED. *)
Theorem progress_bounds (num_children : option Z) cs :
  totalChildren num_children cs ≠ 0%Z
  ∧ filledChildren cs ≤ length cs
  ∧ (num_children = None ∨ num_children = Some 0%Z →
     (Z.of_nat (filledChildren cs) ≤ totalChildren num_children cs)%Z
     ∧ (Z.of_nat (filledChildren cs) = totalChildren num_children cs →
        cs ≠ [] ∧ Forall (λ c, status c = "FILLED") cs)).
Proof.
  assert (Hle : filledChildren cs ≤ length cs) by apply length_filter.
  assert (Hfallback : ∀ n, n = None ∨ n = Some 0%Z →
    totalChildren n cs = if decide (length cs = 0) then 1%Z
                         else Z.of_nat (length cs)).
  { intros n [->| ->]; [done|]. unfold totalChildren. by rewrite decide_True. }
  split_and!.
  - unfold totalChildren. destruct num_children as [n|];
      repeat case_decide; lia.
  - done.
  - intros Hn. rewrite (Hfallback _ Hn). case_decide as Hlen.
    + apply nil_length_inv in Hlen as ->. unfold filledChildren.
      rewrite filter_nil. simpl. split; [lia|discriminate].
    + split; [lia|]. intros Heq%Nat2Z.inj. split.
      * intros ->. by apply Hlen.
      * unfold filledChildren in Heq. apply Forall_forall. intros c Hc.
        destruct (decide (status c = "FILLED")) as [|Hs]; [done|].
        pose proof (length_filter_lt (λ c, status c = "FILLED") cs c Hc Hs). lia.
Qed.

End Table.

End OrderStore.
